(** * pellared/taskflow: a shallow embedding of the execution engine

    The development follows the Go sources:
    - [BufferedOutput]: the append-only output buffer and its replay
      (bufferedOutput, bufferedEntry, bufferedWriter);
    - [Params]: the typed accessors of [Params] (params.go);
    - [Taskflow]: the registry and [Register] (taskflow.go);
    - [FlowRunner]: argument scanning, the memoised depth-first traversal
      and the per-task invocation (flow_runner.go).

    Go maps are [gmap]s (a nil map is [None] where the code tells the two
    apart), slices are lists, strings are [string], and everything a Go
    function mutates is threaded through explicitly. *)

From Stdlib Require Import ZArith Ascii.
From stdpp Require Import base option list strings pretty gmap fin_maps relations.

Open Scope string_scope.
Open Scope list_scope.

(** ** Go's [error] values as far as the engine inspects them *)

(** [io.Writer]: [Write(p) (n int, err error)] acting on a destination
    whose state has type [S]. *)
Record Writer (S : Type) := MkWriter {
  Write : list Byte.byte → S → (nat * option string) * S
}.
Arguments MkWriter {S} _.
Arguments Write {S} _ _ _.

(* ===================================================================== *)
(** * The buffered output *)
(* ===================================================================== *)

Module BufferedOutput.

(** [type Output struct { Primary, Message io.Writer }] *)
Record Output (S : Type) := MkOutput {
  Primary : Writer S;
  Message : Writer S
}.
Arguments MkOutput {S} _ _.
Arguments Primary {S} _.
Arguments Message {S} _.

(** [type bufferedEntry struct { primary bool; data []byte }] *)
Record bufferedEntry := MkEntry {
  primary : bool;
  data : list Byte.byte
}.

(** [type bufferedOutput struct { mutex sync.Mutex; entries []*bufferedEntry }].
    The mutex serialises [add] and [WriteTo]; a sequential embedding keeps
    the order it imposes and drops the lock itself. *)
Record bufferedOutput := MkBuffer {
  entries : list bufferedEntry
}.

(** [type bufferedWriter struct { buffer *bufferedOutput; primary bool }].
    The buffer the writer points to is the one threaded through [Write]. *)
Record bufferedWriter := MkBufferedWriter {
  w_primary : bool
}.

(** [func (buffer *bufferedOutput) add(entry *bufferedEntry)] *)
Definition add (entry : bufferedEntry) (buffer : bufferedOutput) : bufferedOutput :=
  {| entries := entries buffer ++ [entry] |}.

(** [func (w bufferedWriter) Write(p []byte) (n int, err error)]:
    [make] and [copy] give the entry its own copy of [p], which is what a
    list value is. *)
Definition bufferedWriter_Write (w : bufferedWriter) (p : list Byte.byte)
    (buffer : bufferedOutput) : (nat * option string) * bufferedOutput :=
  let n := length p in
  let entry := {| primary := w_primary w; data := take n p |} in
  ((n, None), add entry buffer).

Definition bufferedWriter_Writer (w : bufferedWriter) : Writer bufferedOutput :=
  MkWriter (bufferedWriter_Write w).

(** [func (buffer *bufferedOutput) Output() Output] *)
Definition buffer_Output : Output bufferedOutput :=
  {| Primary := bufferedWriter_Writer {| w_primary := true |};
     Message := bufferedWriter_Writer {| w_primary := false |} |}.

Section WriteTo.
Context {S : Type}.

(** The body of the [range] loop of [WriteTo]: pick the writer, write,
    drop both results. *)
Definition replay_entry (other : Output S) (d : S) (entry : bufferedEntry) : S :=
  let w := if primary entry then Primary other else Message other in
  snd (Write w (data entry) d).

(** [func (buffer *bufferedOutput) WriteTo(other Output)]: returns the
    buffer as the call leaves it together with the destination. *)
Definition WriteTo (buffer : bufferedOutput) (other : Output S) (d : S)
    : bufferedOutput * S :=
  let currentEntries := entries buffer in
  (buffer, fold_left (replay_entry other) currentEntries d).
End WriteTo.

(** One write of a task body: the stream it goes to and the payload. *)
Definition write_op : Type := bool * list Byte.byte.

Definition do_write (buffer : bufferedOutput) (op : write_op) : bufferedOutput :=
  let out := buffer_Output in
  let w := if fst op then Primary out else Message out in
  snd (Write w (snd op) buffer).

(** A sequence of writes in the order the mutex lets them through. *)
Definition do_writes (ops : list write_op) (buffer : bufferedOutput) : bufferedOutput :=
  fold_left do_write ops buffer.

Definition entry_op (e : bufferedEntry) : write_op := (primary e, data e).

(** A destination that records every [Write] call it receives, with the
    stream it arrived on. *)
Definition recorder : Output (list write_op) :=
  {| Primary := MkWriter (λ p log, ((length p, None), log ++ [(true, p)]));
     Message := MkWriter (λ p log, ((length p, None), log ++ [(false, p)])) |}.

Lemma do_write_entries buffer op :
  entries (do_write buffer op) = entries buffer ++ [MkEntry (fst op) (snd op)].
Proof.
  destruct op as [[] p]; cbn; by rewrite firstn_all.
Qed.

Lemma do_writes_entries ops : ∀ buffer,
  entries (do_writes ops buffer)
  = entries buffer ++ map (λ op, MkEntry (fst op) (snd op)) ops.
Proof.
  induction ops as [|op ops IH]; intros buffer; cbn.
  - by rewrite app_nil_r.
  - unfold do_writes in IH. rewrite IH, do_write_entries.
    by rewrite <- app_assoc.
Qed.

Lemma replay_recorder es : ∀ log,
  fold_left (replay_entry recorder) es log = log ++ map entry_op es.
Proof.
  induction es as [|e es IH]; intros log; cbn.
  - by rewrite app_nil_r.
  - rewrite IH. destruct e as [[] p]; cbn; by rewrite <- app_assoc.
Qed.

Lemma entry_op_of_write ops :
  map entry_op (map (λ op : write_op, MkEntry (fst op) (snd op)) ops) = ops.
Proof.
  induction ops as [|[b p] ops IH]; cbn; [done|]. by rewrite IH.
Qed.

(** C3. Whatever the buffer already holds, after any interleaving [ops]
    of writes to the primary and message writers, [WriteTo]
    (a) hands a recording destination exactly the payloads written, in
    append order, each on the writer of the stream it was written to;
    (b) for every destination, is the left-to-right replay of the
    entries and returns the buffer untouched; and so
    (c) a second replay delivers the same sequence again. *)
Theorem buffered_replay_roundtrip
    (buffer0 : bufferedOutput) (ops : list write_op) :
  let buffer := do_writes ops buffer0 in
  snd (WriteTo buffer recorder []) = map entry_op (entries buffer0) ++ ops
  ∧ (∀ (S : Type) (other : Output S) (d : S),
       WriteTo buffer other d
       = (buffer,
          fold_left (replay_entry other)
            (entries buffer0 ++ map (λ op, MkEntry (fst op) (snd op)) ops) d))
  ∧ (let after_first := fst (WriteTo buffer recorder []) in
     after_first = buffer
     ∧ snd (WriteTo after_first recorder [])
       = snd (WriteTo buffer recorder [])).
Proof.
  cbn zeta. split; [|split].
  - unfold WriteTo; cbn [snd]. rewrite replay_recorder, do_writes_entries.
    cbn. by rewrite map_app, entry_op_of_write.
  - intros S other d. unfold WriteTo. by rewrite do_writes_entries.
  - split; reflexivity.
Qed.

(** ** Further properties of the buffer *)

(** Replaying through the writers of another buffer hands each entry to
    [bufferedWriter.Write] with the entry's own flag. *)
Lemma replay_entry_buffer (b : bufferedOutput) (e : bufferedEntry) :
  replay_entry buffer_Output b e = add e b.
Proof.
  destruct e as [[] p]; unfold replay_entry; cbn; by rewrite firstn_all.
Qed.

(** Replaying buffer [a] into the writers of buffer [b] appends the
    entries of [a] to those of [b], payloads and stream flags as they are,
    and leaves [a] as it was. *)
Theorem replay_into_buffer (a b : bufferedOutput) :
  WriteTo a buffer_Output b = (a, MkBuffer (entries b ++ entries a)).
Proof.
  unfold WriteTo. f_equal. destruct a as [es]; cbn [entries].
  revert b. induction es as [|e es IH]; intros [bs]; cbn [fold_left entries].
  - by rewrite app_nil_r.
  - rewrite replay_entry_buffer, IH. unfold add; cbn. by rewrite <- app_assoc.
Qed.

(** A destination with one byte sink per stream, and one whose two
    writers feed the same sink (as when both are the same [io.Writer]). *)
Definition two_sinks : Output (list Byte.byte * list Byte.byte) :=
  {| Primary := MkWriter (λ p d, ((length p, None), (fst d ++ p, snd d)));
     Message := MkWriter (λ p d, ((length p, None), (fst d, snd d ++ p))) |}.

Definition one_sink : Output (list Byte.byte) :=
  {| Primary := MkWriter (λ p d, ((length p, None), d ++ p));
     Message := MkWriter (λ p d, ((length p, None), d ++ p)) |}.

(** The payloads of one stream, in append order. *)
Definition stream_bytes (stream : bool) (es : list bufferedEntry) : list Byte.byte :=
  concat (data <$> filter (λ e, primary e = stream) es).

Lemma replay_two_sinks es : ∀ d,
  fold_left (replay_entry two_sinks) es d
  = (fst d ++ stream_bytes true es, snd d ++ stream_bytes false es).
Proof.
  unfold stream_bytes.
  induction es as [|[[] p] es IH]; intros [d1 d2]; cbn [fold_left].
  - rewrite !filter_nil. cbn. by rewrite !app_nil_r.
  - rewrite IH. unfold replay_entry; cbn [primary data Primary two_sinks Write fst snd].
    rewrite filter_cons_True, filter_cons_False by done. cbn.
    by rewrite <- app_assoc.
  - rewrite IH. unfold replay_entry; cbn [primary data Message two_sinks Write fst snd].
    rewrite filter_cons_False, filter_cons_True by done. cbn.
    by rewrite <- app_assoc.
Qed.

Lemma replay_one_sink es : ∀ d,
  fold_left (replay_entry one_sink) es d = d ++ concat (data <$> es).
Proof.
  induction es as [|[[] p] es IH]; intros d; cbn [fold_left].
  - by rewrite app_nil_r.
  - rewrite IH. unfold replay_entry; cbn. by rewrite <- app_assoc.
  - rewrite IH. unfold replay_entry; cbn. by rewrite <- app_assoc.
Qed.

(** Replay keeps the streams apart and each stream in order: with a sink
    per stream, the primary sink receives the primary payloads and nothing
    else, the message sink the message payloads and nothing else; with one
    sink for both, it receives all payloads in append order. *)
Theorem replay_bytes (buffer : bufferedOutput) (d1 d2 : list Byte.byte) :
  snd (WriteTo buffer two_sinks (d1, d2))
  = (d1 ++ stream_bytes true (entries buffer), d2 ++ stream_bytes false (entries buffer))
  ∧ snd (WriteTo buffer one_sink d1) = d1 ++ concat (data <$> entries buffer).
Proof.
  unfold WriteTo; cbn [snd]. by rewrite replay_two_sinks, replay_one_sink.
Qed.

Section Messages.

(** [fmt.Fprintf] formats and then calls [Write] once; the formatting
    itself belongs to Go's library: [Sprintf format a] is the text it
    produces for the arguments [a]. *)
Context {Args : Type}.
Variable Sprintf : list Byte.byte → Args → list Byte.byte.

Definition newline : list Byte.byte := [Byte.x0a].

(** [func writeLinef(w io.Writer, format string, a ...interface{})] *)
Definition writeLinef {S} (w : Writer S) (format : list Byte.byte) (a : Args) (s : S) : S :=
  snd (Write w (Sprintf (format ++ newline) a) s).

(** [func (out Output) WriteMessagef(format string, a ...interface{})] *)
Definition WriteMessagef {S} (out : Output S) (format : list Byte.byte) (a : Args)
    (s : S) : S :=
  writeLinef (Message out) format a s.

(** A run of [WriteMessagef] calls on the output of a buffer. *)
Definition write_messages (msgs : list (list Byte.byte * Args)) (buffer : bufferedOutput)
    : bufferedOutput :=
  fold_left (λ b m, WriteMessagef buffer_Output (fst m) (snd m) b) msgs buffer.

Lemma write_messages_entries msgs : ∀ buffer,
  entries (write_messages msgs buffer)
  = entries buffer
    ++ ((λ m, MkEntry false (Sprintf (fst m ++ newline) (snd m))) <$> msgs).
Proof.
  induction msgs as [|m msgs IH]; intros buffer; cbn [fmap list_fmap].
  - by rewrite app_nil_r.
  - unfold write_messages in *. cbn [fold_left]. rewrite IH.
    unfold WriteMessagef, writeLinef; cbn. rewrite firstn_all.
    by rewrite <- app_assoc.
Qed.

(** Messages written with [WriteMessagef] stay on the message stream: on
    replay of a buffer that was empty before, the primary sink receives
    nothing and the message sink the formatted lines, one after the other
    in the order of the calls. *)
Theorem messages_stay_on_message_stream (msgs : list (list Byte.byte * Args))
    (d1 d2 : list Byte.byte) :
  snd (WriteTo (write_messages msgs (MkBuffer [])) two_sinks (d1, d2))
  = (d1, d2 ++ concat ((λ m, Sprintf (fst m ++ newline) (snd m)) <$> msgs)).
Proof.
  unfold WriteTo; cbn [snd]. rewrite replay_two_sinks, write_messages_entries.
  cbn [entries app fst snd]. unfold stream_bytes.
  set (entry := λ m : list Byte.byte * Args,
                  MkEntry false (Sprintf (fst m ++ newline) (snd m))).
  assert (Hnone : filter (λ e, primary e = true) (entry <$> msgs) = []).
  { induction msgs as [|m msgs IH]; [done|].
    rewrite fmap_cons, filter_cons_False by done. exact IH. }
  assert (Hall : filter (λ e, primary e = false) (entry <$> msgs) = entry <$> msgs).
  { induction msgs as [|m msgs IH]; [done|].
    rewrite fmap_cons, filter_cons_True by done. by rewrite IH. }
  rewrite Hnone, Hall, <- list_fmap_compose. cbn. by rewrite app_nil_r.
Qed.

End Messages.

End BufferedOutput.


(* ===================================================================== *)
(** * Typed parameter accessors (params.go) *)
(* ===================================================================== *)

Module Params.

(** [*strconv.NumError]: the failing function, the literal, the reason. *)
Record NumError := MkNumError {
  Func : string;
  Num : string;
  Err : string
}.

(** The [error] values the accessors can return.  Go compares them by
    identity: [ErrParamNotSet] is one package-level value made by
    [errors.New], a [*strconv.NumError] comes from strconv, and
    [time.ParseDuration] makes its own value with [errors.New]. *)
Inductive error :=
| ErrParamNotSet
| strconv_NumError (e : NumError)
| time_error (msg : string).

(** [type Params map[string]string]; [p[key]] is the empty string for a
    key the map does not hold. *)
Definition index (p : gmap string string) (key : string) : string :=
  default "" (p !! key).

(** [strconv.ParseBool], as the comment on [Params.Bool] states it: "It
    accepts 1, t, T, TRUE, true, True, 0, f, F, FALSE, false, False. Any
    other value returns an error." *)
Definition strconv_ParseBool (str : string) : bool * option NumError :=
  if bool_decide (str ∈ ["1"; "t"; "T"; "TRUE"; "true"; "True"]) then (true, None)
  else if bool_decide (str ∈ ["0"; "f"; "F"; "FALSE"; "false"; "False"]) then (false, None)
  else (false, Some (MkNumError "ParseBool" str "invalid syntax")).

Section Accessors.

(** The conversions of Go's standard library that the accessors call.
    They are not part of this repository: each is a total function from
    the literal to a value and an optional error, as its Go signature
    says. *)
Variable IntSize : Z.
Variable ParseInt : string → Z → Z → Z * option NumError.
Variable float64 : Type.
Variable float64_zero : float64.
Variable ParseFloat : string → Z → float64 * option NumError.
Variable ParseDuration : string → Z * option string.

(** The conversion [int(i)] of an [int64]: wrap to [IntSize] bits. *)
Definition int_of_int64 (i : Z) : Z :=
  ((i + 2 ^ (IntSize - 1)) mod 2 ^ IntSize - 2 ^ (IntSize - 1))%Z.

Definition lift_NumError (e : option NumError) : option error :=
  strconv_NumError <$> e.

(** [func (p Params) Int(key string) (int, error)] *)
Definition Int (p : gmap string string) (key : string) : Z * option error :=
  let v := index p key in
  if bool_decide (v = "") then (0%Z, Some ErrParamNotSet)
  else
    let '(i, err) := ParseInt v 0 IntSize in
    (int_of_int64 i, lift_NumError err).

(** [func (p Params) Bool(key string) (bool, error)] *)
Definition Bool (p : gmap string string) (key : string) : bool * option error :=
  let v := index p key in
  if bool_decide (v = "") then (false, Some ErrParamNotSet)
  else
    let '(b, err) := strconv_ParseBool v in
    (b, lift_NumError err).

(** [func (p Params) Float64(key string) (float64, error)] *)
Definition Float64 (p : gmap string string) (key : string) : float64 * option error :=
  let v := index p key in
  if bool_decide (v = "") then (float64_zero, Some ErrParamNotSet)
  else
    let '(x, err) := ParseFloat v 64 in
    (x, lift_NumError err).

(** [func (p Params) Duration(key string) (time.Duration, error)] *)
Definition Duration (p : gmap string string) (key : string) : Z * option error :=
  let v := index p key in
  if bool_decide (v = "") then (0%Z, Some ErrParamNotSet)
  else
    let '(d, err) := ParseDuration v in
    (d, time_error <$> err).

Lemma index_unset (p : gmap string string) key : p !! key = None → index p key = "".
Proof. unfold index. by intros ->. Qed.

Lemma index_set (p : gmap string string) key v : p !! key = Some v → index p key = v.
Proof. unfold index. by intros ->. Qed.

(** Every accessor answers "not set" as soon as [p[key]] is empty. *)
Lemma accessors_empty (p : gmap string string) key :
  index p key = "" →
  Int p key = (0%Z, Some ErrParamNotSet)
  ∧ Bool p key = (false, Some ErrParamNotSet)
  ∧ Float64 p key = (float64_zero, Some ErrParamNotSet)
  ∧ Duration p key = (0%Z, Some ErrParamNotSet).
Proof.
  intros Hv. unfold Int, Bool, Float64, Duration. rewrite Hv.
  by rewrite bool_decide_eq_true_2.
Qed.

(** C6, as amended: an unset parameter gives the sentinel with the zero
    value, for each of the four accessors; a parameter set to a literal
    that is not the empty string and that the conversion rejects gives
    the conversion's own error, which is not the sentinel. *)
Theorem typed_accessor_errors (p : gmap string string) (key : string) :
  (p !! key = None →
     Int p key = (0%Z, Some ErrParamNotSet)
     ∧ Bool p key = (false, Some ErrParamNotSet)
     ∧ Float64 p key = (float64_zero, Some ErrParamNotSet)
     ∧ Duration p key = (0%Z, Some ErrParamNotSet))
  ∧ (∀ v, p !! key = Some v → v ≠ "" →
       (∀ e, snd (ParseInt v 0 IntSize) = Some e →
          snd (Int p key) = Some (strconv_NumError e)
          ∧ strconv_NumError e ≠ ErrParamNotSet)
       ∧ (∀ e, snd (strconv_ParseBool v) = Some e →
          snd (Bool p key) = Some (strconv_NumError e)
          ∧ strconv_NumError e ≠ ErrParamNotSet)
       ∧ (∀ e, snd (ParseFloat v 64) = Some e →
          snd (Float64 p key) = Some (strconv_NumError e)
          ∧ strconv_NumError e ≠ ErrParamNotSet)
       ∧ (∀ msg, snd (ParseDuration v) = Some msg →
          snd (Duration p key) = Some (time_error msg)
          ∧ time_error msg ≠ ErrParamNotSet)).
Proof.
  split.
  - intros Hunset. apply accessors_empty. by apply index_unset.
  - intros v Hset Hne.
    unfold Int, Bool, Float64, Duration.
    rewrite (index_set _ _ _ Hset), bool_decide_eq_false_2 by done.
    repeat split; try discriminate.
    + destruct (ParseInt v 0 IntSize) as [i o]; cbn in *. by subst.
    + destruct (strconv_ParseBool v) as [i o]; cbn in *. by subst.
    + destruct (ParseFloat v 64) as [i o]; cbn in *. by subst.
    + destruct (ParseDuration v) as [i o]; cbn in *. by subst.
Qed.

(** C9. A parameter stored as the empty string reads exactly like one
    that is absent: each accessor returns the zero value with the "not
    set" sentinel on both maps. *)
Theorem empty_string_reads_as_unset (p : gmap string string) (key : string) :
  let set_empty := <[key := ""]> p in
  let unset := delete key p in
  set_empty !! key = Some "" ∧ unset !! key = None
  ∧ Int set_empty key = (0%Z, Some ErrParamNotSet)
  ∧ Bool set_empty key = (false, Some ErrParamNotSet)
  ∧ Float64 set_empty key = (float64_zero, Some ErrParamNotSet)
  ∧ Duration set_empty key = (0%Z, Some ErrParamNotSet)
  ∧ Int set_empty key = Int unset key
  ∧ Bool set_empty key = Bool unset key
  ∧ Float64 set_empty key = Float64 unset key
  ∧ Duration set_empty key = Duration unset key.
Proof.
  cbn zeta.
  assert (Hs : <[key := ""]> p !! key = Some "") by apply lookup_insert_eq.
  assert (Hu : delete key p !! key = None) by apply lookup_delete_eq.
  destruct (accessors_empty (<[key := ""]> p) key (index_set _ _ _ Hs))
    as (Hi & Hb & Hf & Hd).
  destruct (accessors_empty (delete key p) key (index_unset _ _ Hu))
    as (Hi' & Hb' & Hf' & Hd').
  rewrite Hi, Hb, Hf, Hd, Hi', Hb', Hf', Hd'. done.
Qed.

End Accessors.

(** Conversions that reject every literal: they stand for strconv and
    time on a literal such as "abc", which Go rejects with these errors. *)
Definition reject_int (s : string) (base bitSize : Z) : Z * option NumError :=
  (0%Z, Some (MkNumError "ParseInt" s "invalid syntax")).
Definition reject_float (s : string) (bitSize : Z) : Z * option NumError :=
  (0%Z, Some (MkNumError "ParseFloat" s "invalid syntax")).
Definition reject_duration (s : string) : Z * option string :=
  (0%Z, Some ("time: invalid duration " +:+ s)).

Lemma typed_accessor_errors_witness :
  Int 64 reject_int ∅ "n" = (0%Z, Some ErrParamNotSet)
  ∧ snd (Int 64 reject_int {[ "n" := "abc" ]} "n")
    = Some (strconv_NumError (MkNumError "ParseInt" "abc" "invalid syntax"))
  ∧ snd (Bool {[ "n" := "abc" ]} "n")
    = Some (strconv_NumError (MkNumError "ParseBool" "abc" "invalid syntax")).
Proof.
  pose proof (typed_accessor_errors 64 reject_int Z 0%Z reject_float reject_duration
                ∅ "n") as [Hunset _].
  pose proof (typed_accessor_errors 64 reject_int Z 0%Z reject_float reject_duration
                {[ "n" := "abc" ]} "n") as [_ Hset].
  destruct (Hset "abc" eq_refl ltac:(discriminate)) as (Hi & Hb & _).
  split; [|split].
  - exact (proj1 (Hunset eq_refl)).
  - exact (proj1 (Hi _ eq_refl)).
  - exact (proj1 (Hb _ eq_refl)).
Defined.

(** C6 as stated fails on the empty literal: [ParseBool] rejects it, yet
    [Bool] answers with the sentinel, not with a conversion error. *)
Lemma empty_literal_reads_as_not_set :
  ¬ (∀ (p : gmap string string) (key v : string),
       p !! key = Some v →
       snd (strconv_ParseBool v) ≠ None →
       ∃ e, snd (Bool p key) = Some e ∧ e ≠ ErrParamNotSet).
Proof.
  intros H.
  destruct (H {[ "debug" := "" ]} "debug" "") as (e & He & Hne).
  - reflexivity.
  - discriminate.
  - vm_compute in He. congruence.
Qed.

(** ** The literals [Bool] accepts *)

Definition true_literals : list string := ["1"; "t"; "T"; "TRUE"; "true"; "True"].
Definition false_literals : list string := ["0"; "f"; "F"; "FALSE"; "false"; "False"].

Lemma literals_disjoint (v : string) : v ∈ true_literals → v ∈ false_literals → False.
Proof.
  unfold true_literals, false_literals. intros Ht Hf.
  repeat (apply elem_of_cons in Ht as [->|Ht]); try (by apply elem_of_nil in Ht);
    repeat (apply elem_of_cons in Hf as [Hf|Hf]); try discriminate;
    by apply elem_of_nil in Hf.
Qed.

Lemma empty_not_literal : ¬ ("" ∈ true_literals) ∧ ¬ ("" ∈ false_literals).
Proof.
  unfold true_literals, false_literals.
  split; intros H; repeat (apply elem_of_cons in H as [H|H]); try discriminate;
    by apply elem_of_nil in H.
Qed.

(** [Bool] returns true without error exactly on the six true literals,
    false without error exactly on the six false literals, and an error
    on everything else: the sentinel when [p[key]] is empty, the
    conversion's syntax error naming the literal otherwise. *)
Theorem Bool_accepts_exactly (p : gmap string string) (key : string) :
  (Bool p key = (true, None) ↔ index p key ∈ true_literals)
  ∧ (Bool p key = (false, None) ↔ index p key ∈ false_literals)
  ∧ (index p key ∉ true_literals → index p key ∉ false_literals →
       Bool p key
       = (false,
          Some (if bool_decide (index p key = "") then ErrParamNotSet
                else strconv_NumError
                       (MkNumError "ParseBool" (index p key) "invalid syntax")))).
Proof.
  unfold Bool, strconv_ParseBool. fold true_literals false_literals.
  destruct empty_not_literal as [Het Hef].
  set (v := index p key). case_bool_decide as Hv.
  { rewrite Hv. split_and!; [split; [discriminate|done]..|done]. }
  case_bool_decide as Ht.
  { cbn. split_and!; [done| |done].
    split; [discriminate|]. intros Hf. by destruct (literals_disjoint v). }
  case_bool_decide as Hf; cbn.
  - split_and!; [|done|done]. split; [discriminate|done].
  - split_and!; [split; [discriminate|done]..|done].
Qed.

End Params.


(* ===================================================================== *)
(** * The registry and the flow runner (taskflow.go, flow_runner.go) *)
(* ===================================================================== *)

Module Taskflow.

(** The line feed and the tab of the format strings. *)
Definition LF : string := String (Ascii.ascii_of_nat 10) "".
Definition TAB : string := String (Ascii.ascii_of_nat 9) "".

Definition CodePass : Z := 0.
Definition CodeFailure : Z := 1.
Definition CodeInvalidArgs : Z := 2.

(** [type RegisteredTask struct { name string }] *)
Record RegisteredTask := MkRegisteredTask {
  name : string
}.

(** The declarations of [ParameterInfo], [BoolParam], [RunResult],
    [Runner], [TF], [parameter] and [Task] are in files of the repository
    that are not among the sources at hand.  Each record below follows
    section 3 of the specification and keeps the fields and methods that
    taskflow.go and flow_runner.go use. *)

(** Modelled from the spec: the declaration of [ParameterInfo] is missing;
    it is the immutable descriptor with a name and a usage text, read as
    [info.Name] and [info.Usage]. *)
Record ParameterInfo := MkParameterInfo {
  pi_Name : string;
  Usage : string
}.

(** Modelled from the spec: the declaration of [BoolParam] is missing; it
    is the handle [RegisterBoolParam] returns, [BoolParam{param{name:
    info.Name}}]. *)
Record BoolParam := MkBoolParam {
  bp_name : string
}.

(** Modelled from the spec: the declaration of the elements of
    [task.Parameters] is missing; they are references to parameter
    definitions, of which the runner only calls [Name()]. *)
Record RegisteredParam := MkRegisteredParam {
  rp_Name : string
}.

(** Modelled from the spec: the declaration of [RunResult] is missing; it
    is the per-task outcome exposing [Failed()], [Skipped()] and
    [Duration()] (here in nanoseconds). *)
Record RunResult := MkRunResult {
  failed : bool;
  skipped : bool;
  duration : Z
}.

(** Modelled from the spec: the declaration of [Runner] is missing; it is
    the task-body runner, built as [Runner{Ctx, TaskName, ParamValues,
    Output}].  A [Value] is a pointer: a location of the value heap, or
    [None] for a nil interface.  The context is read from the world and
    the output is the sink the caller threads, so neither is a field
    here. *)
Record Runner := MkRunner {
  TaskName : string;
  ParamValues : gmap string (option nat)
}.

(** Modelled from the spec: the declaration of [TF] is missing; it is what
    a command receives, read as [tf.Name()] and [tf.paramValues]
    ([tf.Output()] is the sink the caller threads). *)
Record TF := MkTF {
  tf_Name : string;
  tf_paramValues : gmap string (option nat)
}.

(** Modelled from the spec: the declaration of [parameter] is missing; it
    is the parameter definition [parameter{info, newValue}], and
    [newValue] here is the value its factory makes. *)
Record parameter (Val : Type) := MkParameter {
  info : ParameterInfo;
  newValue : Val
}.
Arguments MkParameter {Val} _ _.
Arguments info {Val} _.
Arguments newValue {Val} _.

(** Modelled from the spec: the declaration of [Task] is missing; it has a
    name, a description, an optional body [Command] (nil or a function),
    the ordered [Dependencies] and the declared [Parameters]. *)
Record Task (Cmd : Type) := MkTask {
  Name : string;
  Description : string;
  Command : option Cmd;
  Dependencies : list RegisteredTask;
  Parameters : list RegisteredParam
}.
Arguments MkTask {Cmd} _ _ _ _ _.
Arguments Name {Cmd} _.
Arguments Description {Cmd} _.
Arguments Command {Cmd} _.
Arguments Dependencies {Cmd} _.
Arguments Parameters {Cmd} _.

(** [type Taskflow struct]: [Output] is the destination text kept in the
    runner's state; [params] and [tasks] may be nil maps. *)
Record Taskflow (Val Cmd : Type) := MkTaskflow {
  DefaultTask : RegisteredTask;
  tf_verbose : option BoolParam;
  tf_params : option (gmap string (parameter Val));
  tf_tasks : option (gmap string (Task Cmd))
}.
Arguments MkTaskflow {Val Cmd} _ _ _ _.
Arguments DefaultTask {Val Cmd} _.
Arguments tf_verbose {Val Cmd} _.
Arguments tf_params {Val Cmd} _.
Arguments tf_tasks {Val Cmd} _.

(** [type flowRunner struct]: the fields [Run] only reads.  [output] and
    [paramValues], which it writes, live in [State]. *)
Record flowRunner (Val Cmd : Type) := MkFlowRunner {
  params : gmap string (parameter Val);
  tasks : gmap string (Task Cmd);
  verbose : option BoolParam;
  defaultTask : RegisteredTask
}.
Arguments MkFlowRunner {Val Cmd} _ _ _ _.
Arguments params {Val Cmd} _.
Arguments tasks {Val Cmd} _.
Arguments verbose {Val Cmd} _.
Arguments defaultTask {Val Cmd} _.

(** What the engine calls and the sources at hand do not define: Go's
    context, clock and number formatting, and the repository's task-body
    runner, parameter values and flag spellings.  They are parameters of
    the development.  [W] is the world a task body acts on (its counters,
    the clock, the cancellation state of the context), [Val] the state of
    a parameter value, [Cmd] the type of task bodies. *)
Class Collaborators (W Val Cmd : Type) := {
  (** [ctx.Err()]: nil, or the text of the cancellation error. *)
  ctx_Err : W → option string;
  (** [time.Now()], in nanoseconds. *)
  time_Now : W → Z;
  (** [%.Nf] of [Duration.Seconds()], for N decimals. *)
  fmt_seconds : nat → Z → string;
  (** [Runner.Run(command)], given the heap of values its [ParamValues]
      point into: the text the run writes to [Runner.Output], the result
      it reports and the world it leaves. *)
  Runner_Run : Runner → Cmd → list Val → W → string * RunResult * W;
  (** [Value.Set(s)]: the value after the call and the error returned. *)
  Value_Set : string → Val → Val * option string;
  (** [Value.IsBool()] *)
  Value_IsBool : Val → bool;
  (** [BoolParam.Get(tf)], reading the heap of values. *)
  BoolParam_Get : BoolParam → TF → list Val → bool;
  (** [info.longFlag()] and [info.shortFlag()] *)
  longFlag : ParameterInfo → string;
  shortFlag : ParameterInfo → string;
  (** The order in which [range f.params] yields the parameters. *)
  range_params : gmap string (parameter Val) → list (parameter Val);
  (** The text [printUsage] writes (laid out by text/tabwriter). *)
  printUsage_text : flowRunner Val Cmd → string
}.

Section Engine.

Context {W Val Cmd : Type} `{!Collaborators W Val Cmd}.

(** ** Registration *)

Definition zero_RegisteredTask : RegisteredTask := {| name := "" |}.

(** The task map as a map: a nil map holds nothing. *)
Definition tasks_of (f : Taskflow Val Cmd) : gmap string (Task Cmd) :=
  default ∅ (tf_tasks f).

Definition set_tasks (m : gmap string (Task Cmd)) (f : Taskflow Val Cmd)
    : Taskflow Val Cmd :=
  {| DefaultTask := DefaultTask f; tf_verbose := tf_verbose f;
     tf_params := tf_params f; tf_tasks := Some m |}.

(** [func (f *Taskflow) isRegistered(name string) bool] *)
Definition isRegistered (nm : string) (f : Taskflow Val Cmd)
    : bool * Taskflow Val Cmd :=
  let f := match tf_tasks f with
           | None => set_tasks ∅ f
           | Some _ => f
           end in
  (bool_decide (is_Some (tasks_of f !! nm)), f).

(** The [for _, dep := range task.Dependencies] loop of [Register]. *)
Fixpoint check_dependencies (deps : list RegisteredTask) (f : Taskflow Val Cmd)
    : option string * Taskflow Val Cmd :=
  match deps with
  | [] => (None, f)
  | dep :: deps =>
    let '(ok, f) := isRegistered (name dep) f in
    if negb ok then (Some ("invalid dependency " +:+ name dep), f)
    else check_dependencies deps f
  end.

(** [func (f *Taskflow) Register(task Task) (RegisteredTask, error)] *)
Definition Register (task : Task Cmd) (f : Taskflow Val Cmd)
    : (RegisteredTask * option string) * Taskflow Val Cmd :=
  if bool_decide (Name task = "") then
    ((zero_RegisteredTask, Some "task name cannot be empty"), f)
  else
    let '(registered, f) := isRegistered (Name task) f in
    if registered then
      ((zero_RegisteredTask, Some (Name task +:+ " task was already registered")), f)
    else
      match check_dependencies (Dependencies task) f with
      | (Some err, f) => ((zero_RegisteredTask, Some err), f)
      | (None, f) =>
        (({| name := Name task |}, None),
         set_tasks (<[Name task := task]> (tasks_of f)) f)
      end.

(** ** The state a run threads *)

(** What the traversal does, in order: each [ctx.Err()] it evaluates for a
    task with the answer, and each task body it runs with the result and
    the world the body leaves. *)
Inductive Event :=
| EvCheck (task : string) (err : option string)
| EvBody (task : string) (result : RunResult) (after : W).

Record State := MkState {
  world : W;
  (** the bytes [f.output] has received *)
  output : string;
  (** the [Value]s allocated by [Run], by location *)
  heap : list Val;
  (** [f.paramValues] *)
  paramValues : gmap string nat;
  (** [executedTasks] of [runTasks] *)
  executed : gmap string bool;
  log : list Event
}.

Definition with_world (w : W) (st : State) : State :=
  {| world := w; output := output st; heap := heap st;
     paramValues := paramValues st; executed := executed st; log := log st |}.
Definition write_output (s : string) (st : State) : State :=
  {| world := world st; output := output st +:+ s; heap := heap st;
     paramValues := paramValues st; executed := executed st; log := log st |}.
Definition with_values (pv : gmap string nat) (h : list Val) (st : State) : State :=
  {| world := world st; output := output st; heap := h;
     paramValues := pv; executed := executed st; log := log st |}.
Definition with_executed (e : gmap string bool) (st : State) : State :=
  {| world := world st; output := output st; heap := heap st;
     paramValues := paramValues st; executed := e; log := log st |}.
Definition log_event (ev : Event) (st : State) : State :=
  {| world := world st; output := output st; heap := heap st;
     paramValues := paramValues st; executed := executed st;
     log := log st ++ [ev] |}.

(** [executed[name]] on a [map[string]bool] *)
Definition is_executed (st : State) (nm : string) : bool :=
  default false (executed st !! nm).

(** ** Running one task *)

(** The writer [w] of [measuredCommand]: [tf.Output()], which is
    [f.output], or a fresh [strings.Builder]. *)
Inductive sink :=
| ToOutput
| ToBuilder (sb : string).

(** [fmt.Fprintf(w, ...)] with the formatted text [s]. *)
Definition Fprint (w : sink) (s : string) (st : State) : sink * State :=
  match w with
  | ToOutput => (ToOutput, write_output s st)
  | ToBuilder sb => (ToBuilder (sb +:+ s), st)
  end.

(** The first loop of [runTask] and the verbose entry. *)
Definition task_paramValues (f : flowRunner Val Cmd) (task : Task Cmd) (st : State)
    : gmap string (option nat) :=
  let pv := fold_left (λ pv param, <[rp_Name param := paramValues st !! rp_Name param]> pv)
                      (Parameters task) ∅ in
  match verbose f with
  | Some v => <[bp_name v := paramValues st !! bp_name v]> pv
  | None => pv
  end.

Definition status_text (result : RunResult) : string :=
  if failed result then "FAIL"
  else if skipped result then "SKIP"
  else "PASS".

(** The closure [measuredCommand] of [runTask], applied to the [tf] that
    [measuredRunner.Run] hands it; returns the captured [failed]. *)
Definition measuredCommand (f : flowRunner Val Cmd) (command : Cmd) (tf : TF)
    (st : State) : bool * State :=
  let w := match verbose f with
           | Some v => if negb (BoolParam_Get v tf (heap st)) then ToBuilder "" else ToOutput
           | None => ToOutput
           end in
  let '(w, st) := Fprint w ("===== TASK  " +:+ tf_Name tf +:+ LF) st in
  let runner := {| TaskName := tf_Name tf; ParamValues := tf_paramValues tf |} in
  let '(written, result, after) := Runner_Run runner command (heap st) (world st) in
  let st := log_event (EvBody (tf_Name tf) result after) (with_world after st) in
  let '(w, st) := Fprint w written st in
  let status := status_text result in
  let '(w, st) := Fprint w ("----- " +:+ status +:+ ": " +:+ tf_Name tf +:+ " ("
                            +:+ fmt_seconds 2 (duration result) +:+ "s)" +:+ LF) st in
  let st := match w with
            | ToBuilder sb => if failed result then write_output sb st else st
            | ToOutput => st
            end in
  (failed result, st).

(** [func (f *flowRunner) runTask(ctx context.Context, task Task) bool].
    [measuredRunner.Run(measuredCommand)] calls the closure once, with the
    task's name, the selected parameter values and [f.output]. *)
Definition runTask (f : flowRunner Val Cmd) (task : Task Cmd) (st : State)
    : bool * State :=
  match Command task with
  | None => (true, st)
  | Some command =>
    let paramValues := task_paramValues f task st in
    let tf := {| tf_Name := Name task; tf_paramValues := paramValues |} in
    let '(failed, st) := measuredCommand f command tf st in
    (negb failed, st)
  end.

(** ** The traversal *)

Definition zero_Task : Task Cmd :=
  {| Name := ""; Description := ""; Command := None;
     Dependencies := []; Parameters := [] |}.

(** [f.tasks[name]] *)
Definition task_at (f : flowRunner Val Cmd) (nm : string) : Task Cmd :=
  default zero_Task (tasks f !! nm).

(** A [for _, x := range xs] loop whose body may return an error, which
    ends the loop; [None] is a body that did not return. *)
Fixpoint range_until_error (body : string → State → option (option string * State))
    (xs : list string) (st : State) : option (option string * State) :=
  match xs with
  | [] => Some (None, st)
  | x :: xs =>
    match body x st with
    | None => None
    | Some (Some err, st) => Some (Some err, st)
    | Some (None, st) => range_until_error body xs st
    end
  end.

(** [func (f *flowRunner) run(ctx, name, executed) error].  The recursion
    follows the dependency lists, so it is bounded by [fuel]; [None] means
    the bound was reached. *)
Fixpoint run (fuel : nat) (f : flowRunner Val Cmd) (nm : string) (st : State)
    : option (option string * State) :=
  match fuel with
  | O => None
  | S fuel =>
    let task := task_at f nm in
    if is_executed st nm then Some (None, st)
    else
      match range_until_error (run fuel f) (name <$> Dependencies task) st with
      | None => None
      | Some (Some err, st) => Some (Some err, st)
      | Some (None, st) =>
        let err := ctx_Err (world st) in
        let st := log_event (EvCheck nm err) st in
        match err with
        | Some err => Some (Some err, st)
        | None =>
          let '(passed, st) := runTask f task st in
          let err := ctx_Err (world st) in
          let st := log_event (EvCheck nm err) st in
          match err with
          | Some err => Some (Some err, st)
          | None =>
            if negb passed then Some (Some "task failed", st)
            else Some (None, with_executed (<[nm := true]> (executed st)) st)
          end
        end
      end
  end.

(** [func (f *flowRunner) runTasks(ctx, tasks []string) int] *)
Definition runTasks (fuel : nat) (f : flowRunner Val Cmd) (requested : list string)
    (st : State) : option (Z * State) :=
  let from := time_Now (world st) in
  let st := with_executed ∅ st in
  match range_until_error (run fuel f) requested st with
  | None => None
  | Some (Some err, st) =>
    let since := (time_Now (world st) - from)%Z in
    Some (CodeFailure, write_output (err +:+ TAB +:+ fmt_seconds 3 since +:+ "s" +:+ LF) st)
  | Some (None, st) =>
    let since := (time_Now (world st) - from)%Z in
    Some (CodePass, write_output ("ok" +:+ TAB +:+ fmt_seconds 3 since +:+ "s" +:+ LF) st)
  end.

(** ** Argument scanning *)

(** [strings.SplitN(arg, "=", 2)]: the text before the first '=' and, when
    there is one, the text after it. *)
Fixpoint split_eq (arg : string) : string * option string :=
  match arg with
  | EmptyString => ("", None)
  | String c rest =>
    if Ascii.eqb c "="%char then ("", Some rest)
    else let '(before, after) := split_eq rest in (String c before, after)
  end.

(** One iteration of the first loop of [Run]: allocate the parameter's
    value and enter it under its name and its flags. *)
Definition bind_param (acc : gmap string nat * gmap string nat * list Val)
    (param : parameter Val) : gmap string nat * gmap string nat * list Val :=
  let '(paramValues, valuesByFlag, heap) := acc in
  let value := length heap in
  let heap := heap ++ [newValue param] in
  let paramValues := <[pi_Name (info param) := value]> paramValues in
  let valuesByFlag := <[longFlag (info param) := value]> valuesByFlag in
  let shortFlag := shortFlag (info param) in
  let valuesByFlag :=
    if bool_decide (0 < String.length shortFlag) then <[shortFlag := value]> valuesByFlag
    else valuesByFlag in
  (paramValues, valuesByFlag, heap).

(** [value.Set(s)] through the pointer [value].  Every location found in
    [valuesByFlag] was allocated by [bind_param], so the lookup succeeds;
    a dangling location leaves the heap as it is. *)
Definition Set_at (value : nat) (s : string) (st : State) : option string * State :=
  match heap st !! value with
  | Some v =>
    let '(v, err) := Value_Set s v in
    (err, with_values (paramValues st) (<[value := v]> (heap st)) st)
  | None => (None, st)
  end.

Definition IsBool_at (value : nat) (st : State) : bool :=
  match heap st !! value with
  | Some v => Value_IsBool v
  | None => false
  end.

(** The variable [argHandler]: the handler [Run] installs first, or the
    one [handleNextArgFor] puts in its place for one argument. *)
Inductive handler :=
| scanHandler
| nextArgFor (value : nat).

(** The locals of [Run] that the handlers update. *)
Record Scan := MkScan {
  argHandler : handler;
  requested : list string;
  usageRequested : bool;
  scan_state : State
}.

Definition is_help (arg : string) : bool :=
  bool_decide (arg = "-h") || bool_decide (arg = "--help") || bool_decide (arg = "help").

(** One call [argHandler(arg)]. *)
Definition handle_arg (f : flowRunner Val Cmd) (valuesByFlag : gmap string nat)
    (sc : Scan) (arg : string) : option string * Scan :=
  match argHandler sc with
  | nextArgFor value =>
    let '(err, st) := Set_at value arg (scan_state sc) in
    (err, MkScan scanHandler (requested sc) (usageRequested sc) st)
  | scanHandler =>
    if bool_decide (is_Some (tasks f !! arg)) then
      (None, MkScan scanHandler (requested sc ++ [arg]) (usageRequested sc) (scan_state sc))
    else
      let split := split_eq arg in
      match valuesByFlag !! fst split with
      | Some value =>
        match snd split with
        | Some text =>
          let '(err, st) := Set_at value text (scan_state sc) in
          (err, MkScan scanHandler (requested sc) (usageRequested sc) st)
        | None =>
          if IsBool_at value (scan_state sc) then
            let '(err, st) := Set_at value "" (scan_state sc) in
            (err, MkScan scanHandler (requested sc) (usageRequested sc) st)
          else
            (None, MkScan (nextArgFor value) (requested sc) (usageRequested sc)
                     (scan_state sc))
        end
      | None =>
        if is_help arg then
          (None, MkScan scanHandler (requested sc) true (scan_state sc))
        else
          (Some ("unknown argument: " +:+ arg),
           MkScan scanHandler (requested sc) (usageRequested sc)
             (write_output ("unknown argument: " +:+ arg +:+ LF) (scan_state sc)))
      end
  end.

(** The loop [for _, arg := range args], left at the first error. *)
Fixpoint scan_args (f : flowRunner Val Cmd) (valuesByFlag : gmap string nat)
    (args : list string) (sc : Scan) : option string * Scan :=
  match args with
  | [] => (None, sc)
  | arg :: args =>
    match handle_arg f valuesByFlag sc arg with
    | (Some err, sc) => (Some err, sc)
    | (None, sc) => scan_args f valuesByFlag args sc
    end
  end.

(** [func printUsage(f *flowRunner)] *)
Definition printUsage (f : flowRunner Val Cmd) (st : State) : State :=
  write_output (printUsage_text f) st.

(** The state after the first loop of [Run], and the flag index. *)
Definition bind_params (f : flowRunner Val Cmd) (st : State)
    : gmap string nat * State :=
  let '(paramValues, valuesByFlag, heap) :=
    fold_left bind_param (range_params (params f)) (∅, ∅, []) in
  (valuesByFlag, with_values paramValues heap st).

(** [func (f *flowRunner) Run(ctx context.Context, args []string) int] *)
Definition Run (fuel : nat) (f : flowRunner Val Cmd) (args : list string) (st : State)
    : option (Z * State) :=
  let '(valuesByFlag, st) := bind_params f st in
  match scan_args f valuesByFlag args (MkScan scanHandler [] false st) with
  | (Some _, sc) => Some (CodeInvalidArgs, scan_state sc)
  | (None, sc) =>
    let st := scan_state sc in
    if usageRequested sc then Some (CodePass, printUsage f st)
    else
      let tasks :=
        if bool_decide (requested sc = []) && negb (bool_decide (name (defaultTask f) = ""))
        then requested sc ++ [name (defaultTask f)]
        else requested sc in
      if bool_decide (tasks = []) then
        Some (CodeInvalidArgs, printUsage f (write_output ("no task provided" +:+ LF) st))
      else runTasks fuel f tasks st
  end.

End Engine.

(* ===================================================================== *)
(** * A small instance, used to run the engine on concrete inputs *)
(* ===================================================================== *)

Module Sample.

(** The world of the sample bodies: the names of the bodies that ran, the
    cancellation state of the context and a clock. *)
Record SampleWorld := MkWorld {
  ran : list string;
  cancelled : option string;
  clock : Z
}.

(** A boolean or a string parameter value. *)
Inductive SampleValue :=
| boolValue (b : bool)
| stringValue (s : string).

(** A body that writes [says], takes [takes] nanoseconds, fails or skips
    as [fails] and [skips] say, and cancels the context when [cancels] is
    set. *)
Record SampleCommand := MkCommand {
  says : string;
  fails : bool;
  skips : bool;
  takes : Z;
  cancels : bool
}.

(** A boolean value takes the empty text of a bare flag as true and
    otherwise the literals of [strconv.ParseBool]; a string value takes
    any text. *)
Definition sample_Set (s : string) (v : SampleValue) : SampleValue * option string :=
  match v with
  | boolValue b =>
    if bool_decide (s = "") then (boolValue true, None)
    else match Params.strconv_ParseBool s with
         | (b', None) => (boolValue b', None)
         | (_, Some e) => (boolValue b, Some ("invalid syntax: " +:+ s))
         end
  | stringValue _ => (stringValue s, None)
  end.

(** The boolean the parameter's value holds; false when there is none. *)
Definition sample_Get (p : BoolParam) (tf : TF) (heap : list SampleValue) : bool :=
  match tf_paramValues tf !! bp_name p with
  | Some (Some value) =>
    match heap !! value with
    | Some (boolValue b) => b
    | _ => false
    end
  | _ => false
  end.

(** Running a sample body: it records its name in the world, advances
    the clock and may cancel the context. *)
Definition sample_Run (r : Runner) (c : SampleCommand) (h : list SampleValue)
    (w : SampleWorld) : string * RunResult * SampleWorld :=
  (says c,
   {| failed := fails c; skipped := skips c; duration := takes c |},
   {| ran := ran w ++ [TaskName r];
      cancelled := if cancels c then Some "context canceled" else cancelled w;
      clock := (clock w + takes c)%Z |}).

(** Seconds are printed truncated, with zero decimals; flags are spelled
    "--name" and "-name". *)
#[export] Instance sample : Collaborators SampleWorld SampleValue SampleCommand := {
  ctx_Err := cancelled;
  time_Now := clock;
  fmt_seconds := λ n d, pretty (d / 1000000000)%Z +:+ "." +:+ String.concat "" (replicate n "0");
  Runner_Run := sample_Run;
  Value_Set := sample_Set;
  Value_IsBool := λ v, match v with boolValue _ => true | stringValue _ => false end;
  BoolParam_Get := sample_Get;
  longFlag := λ i, "--" +:+ pi_Name i;
  shortFlag := λ i, "-" +:+ pi_Name i;
  range_params := λ m, (map_to_list m).*2;
  printUsage_text := λ _, "Usage: [flag(s)] task(s)" +:+ LF
}.

Definition body (text : string) : option SampleCommand :=
  Some {| says := text; fails := false; skips := false; takes := 0; cancels := false |}.
Definition failing (text : string) : option SampleCommand :=
  Some {| says := text; fails := true; skips := false; takes := 0; cancels := false |}.
Definition cancelling (text : string) : option SampleCommand :=
  Some {| says := text; fails := false; skips := false; takes := 0; cancels := true |}.

Definition dep (nm : string) : RegisteredTask := {| name := nm |}.

Definition task (nm : string) (c : option SampleCommand) (deps : list string)
    : Task SampleCommand :=
  {| Name := nm; Description := ""; Command := c;
     Dependencies := dep <$> deps; Parameters := [] |}.

(** The diamond a <- b, a <- c, {b, c} <- d, with the given bodies. *)
Definition graph (a b c d : option SampleCommand) : gmap string (Task SampleCommand) :=
  <["d" := task "d" d ["b"; "c"]]>
  (<["c" := task "c" c ["a"]]>
  (<["b" := task "b" b ["a"]]>
  (<["a" := task "a" a []]> ∅))).

Definition diamond : gmap string (Task SampleCommand) :=
  graph (body "one") (body "two") (body "three") (body "four").

Definition verbose_param : parameter SampleValue :=
  {| info := {| pi_Name := "v"; Usage := "Verbose output" |}; newValue := boolValue false |}.

Definition runner (ts : gmap string (Task SampleCommand)) : flowRunner SampleValue SampleCommand :=
  {| params := {[ "v" := verbose_param ]}; tasks := ts;
     verbose := Some {| bp_name := "v" |}; defaultTask := {| name := "" |} |}.

Definition start : State (W := SampleWorld) (Val := SampleValue) :=
  {| world := {| ran := []; cancelled := None; clock := 0 |};
     output := ""; heap := []; paramValues := ∅; executed := ∅; log := [] |}.

End Sample.

(* ===================================================================== *)
(** * Properties *)
(* ===================================================================== *)

Lemma append_assoc (a b c : string) : (a +:+ b) +:+ c = a +:+ (b +:+ c).
Proof.
  induction a as [|x a IH]; [reflexivity|].
  change (String x ((a +:+ b) +:+ c) = String x (a +:+ (b +:+ c))).
  by rewrite IH.
Qed.

Lemma append_nil_l (a : string) : "" +:+ a = a.
Proof. reflexivity. Qed.

Section Properties.

Context {W Val Cmd : Type} `{!Collaborators W Val Cmd}.

Implicit Types (f : flowRunner Val Cmd) (st : State (W := W) (Val := Val)).
Implicit Types (task : Task Cmd) (nm : string).

(** ** Registration *)

Lemma isRegistered_spec nm (r : Taskflow Val Cmd) :
  fst (isRegistered nm r) = bool_decide (is_Some (tasks_of r !! nm))
  ∧ tasks_of (snd (isRegistered nm r)) = tasks_of r.
Proof.
  unfold isRegistered, tasks_of. destruct r as [d v ps [m|]]; cbn; done.
Qed.

Lemma check_dependencies_spec deps : ∀ (r : Taskflow Val Cmd),
  tasks_of (snd (check_dependencies deps r)) = tasks_of r
  ∧ (fst (check_dependencies deps r) = None
     ↔ ∀ dep, dep ∈ deps → is_Some (tasks_of r !! name dep)).
Proof.
  induction deps as [|dep deps IH]; intros r; cbn [check_dependencies].
  - split; [done|]. split; [|done]. intros _ dep Hin. by apply elem_of_nil in Hin.
  - destruct (isRegistered_spec (name dep) r) as [Hok Hsame].
    destruct (isRegistered (name dep) r) as [ok r'] eqn:Hreg; cbn [fst snd] in Hok, Hsame.
    subst ok. case_bool_decide as Hdep; cbn [negb].
    + destruct (IH r') as [IH1 IH2]. rewrite IH1, IH2, Hsame. split; [done|].
      split.
      * intros Hall d [->|Hin]%elem_of_cons; [done|]. by apply Hall.
      * intros Hall d Hin. apply Hall. by right.
    + split; [done|]. split; [done|]. intros Hall. destruct Hdep.
      apply Hall. by left.
Qed.

(** C5. [Register] returns an error exactly when the name is empty, the
    name is taken, or a listed dependency is not registered; with an
    error it returns the zero handle and leaves the name-to-task mapping
    as it was; without one it returns the handle that carries the task's
    name and the mapping is the old one with the task stored under it. *)
Theorem Register_errors task (r : Taskflow Val Cmd) :
  let handle := fst (fst (Register task r)) in
  let err := snd (fst (Register task r)) in
  let r' := snd (Register task r) in
  (is_Some err
   ↔ Name task = ""
     ∨ is_Some (tasks_of r !! Name task)
     ∨ ∃ dep, dep ∈ Dependencies task ∧ tasks_of r !! name dep = None)
  ∧ (is_Some err →
       handle = zero_RegisteredTask ∧ ∀ nm, tasks_of r' !! nm = tasks_of r !! nm)
  ∧ (err = None →
       handle = {| name := Name task |}
       ∧ tasks_of r' !! Name task = Some task
       ∧ ∀ nm, nm ≠ Name task → tasks_of r' !! nm = tasks_of r !! nm).
Proof.
  cbn zeta. unfold Register.
  case_bool_decide as Hname.
  { cbn. split; [|split]; [split; eauto| done | by intros [=]]. }
  destruct (isRegistered_spec (Name task) r) as [Hreg Hsame].
  destruct (isRegistered (Name task) r) as [registered r1]; cbn in Hreg, Hsame.
  subst registered. case_bool_decide as Htaken.
  { cbn. split; [|split]; [split; eauto| by rewrite Hsame | by intros [=]]. }
  destruct (check_dependencies_spec (Dependencies task) r1) as [Hsame2 Hdeps].
  destruct (check_dependencies (Dependencies task) r1) as [[err|] r2];
    cbn in Hsame2, Hdeps; cbn.
  - rewrite Hsame2, Hsame. split; [|split]; [|done|by intros [=]].
    split; [|eauto]. intros _. right; right.
    destruct (decide (Forall (λ dep, is_Some (tasks_of r !! name dep))
                             (Dependencies task))) as [Hall|Hnot].
    + rewrite Forall_forall in Hall. rewrite <- Hsame in Hall.
      apply Hdeps in Hall. done.
    + apply not_Forall_Exists in Hnot; [|apply _].
      apply Exists_exists in Hnot as (dep & Hin & Hdep).
      exists dep. split; [done|]. by apply eq_None_not_Some.
  - assert (Hall : ∀ dep, dep ∈ Dependencies task → is_Some (tasks_of r !! name dep)).
    { rewrite <- Hsame. by apply Hdeps. }
    split; [|split].
    + split; [by intros [? [=]]|]. intros [?|[?|(dep & Hin & Hnone)]]; [done..|].
      apply Hall in Hin. rewrite Hnone in Hin. by destruct Hin.
    + by intros [? [=]].
    + intros _. unfold tasks_of at 1 3; cbn. rewrite Hsame2, Hsame.
      split; [done|]. split; [apply lookup_insert_eq|].
      intros nm Hne. by rewrite lookup_insert_ne.
Qed.

(** ** Running one task *)

(** The [tf] and the runner that [runTask] sets up for a task. *)
Definition task_tf f task st : TF :=
  {| tf_Name := Name task; tf_paramValues := task_paramValues f task st |}.

Definition task_runner f task st : Runner :=
  {| TaskName := Name task; ParamValues := task_paramValues f task st |}.

(** The three pieces of text [measuredCommand] writes to [w]. *)
Definition start_marker task : string := "===== TASK  " +:+ Name task +:+ LF.

Definition end_marker task (result : RunResult) : string :=
  "----- " +:+ status_text result +:+ ": " +:+ Name task +:+ " ("
  +:+ fmt_seconds 2 (duration result) +:+ "s)" +:+ LF.

Definition task_text task (written : string) (result : RunResult) : string :=
  start_marker task +:+ written +:+ end_marker task result.

(** What [runTask] does for a task with a body, in terms of the run of
    the body: the state but for [output], and [output] by cases. *)
Lemma runTask_body f task st command written result after :
  Command task = Some command →
  Runner_Run (task_runner f task st) command (heap st) (world st)
  = (written, result, after) →
  let buffered := match verbose f with
                  | Some v => negb (BoolParam_Get v (task_tf f task st) (heap st))
                  | None => false
                  end in
  let st' := snd (runTask f task st) in
  fst (runTask f task st) = negb (failed result)
  ∧ world st' = after
  ∧ log st' = log st ++ [EvBody (Name task) result after]
  ∧ executed st' = executed st
  ∧ heap st' = heap st
  ∧ paramValues st' = paramValues st
  ∧ output st' =
      if buffered && negb (failed result) then output st
      else output st +:+ task_text task written result.
Proof.
  intros Hcmd Hrun. cbn zeta. unfold runTask. rewrite Hcmd.
  unfold measuredCommand. cbn [tf_Name tf_paramValues].
  unfold task_runner in Hrun.
  destruct (verbose f) as [v|]; [destruct (BoolParam_Get v _ (heap st)) eqn:Hget|];
    cbn [negb Fprint world heap write_output];
    rewrite Hrun; cbn;
    unfold task_tf in *; try rewrite Hget; cbn;
    destruct (failed result); cbn;
    repeat split; try done;
    unfold task_text, start_marker, end_marker;
    by rewrite ?append_assoc, ?append_nil_l.
Qed.

(** C4. With the verbose switch off, a task whose body passes or skips
    leaves the destination exactly as it was; a task whose body fails adds
    to the destination the start marker, all the body wrote and the end
    marker, in that order. *)
Theorem quiet_task_output f task st v command written result after :
  verbose f = Some v →
  BoolParam_Get v (task_tf f task st) (heap st) = false →
  Command task = Some command →
  Runner_Run (task_runner f task st) command (heap st) (world st)
  = (written, result, after) →
  let st' := snd (runTask f task st) in
  (failed result = false → output st' = output st)
  ∧ (failed result = true →
       output st' =
         output st +:+ ("===== TASK  " +:+ Name task +:+ LF)
                   +:+ written
                   +:+ ("----- FAIL: " +:+ Name task +:+ " ("
                        +:+ fmt_seconds 2 (duration result) +:+ "s)" +:+ LF)).
Proof.
  intros Hv Hoff Hcmd Hrun.
  destruct (runTask_body f task st command written result after Hcmd Hrun)
    as (_ & _ & _ & _ & _ & _ & Hout).
  rewrite Hv, Hoff in Hout. cbn zeta. split; intros Hres; rewrite Hout, Hres; cbn.
  - done.
  - unfold task_text, start_marker, end_marker, status_text. by rewrite Hres.
Qed.

(** ** Argument scanning *)

Lemma Set_at_frame value text st :
  log (snd (Set_at value text st)) = log st
  ∧ world (snd (Set_at value text st)) = world st
  ∧ output (snd (Set_at value text st)) = output st.
Proof.
  unfold Set_at. destruct (heap st !! value) as [v|]; [|done].
  by destruct (Value_Set text v).
Qed.

(** The handlers never run a task body: the log and the world stay. *)
Lemma handle_arg_frame f vbf sc arg :
  log (scan_state (snd (handle_arg f vbf sc arg))) = log (scan_state sc)
  ∧ world (scan_state (snd (handle_arg f vbf sc arg))) = world (scan_state sc).
Proof.
  unfold handle_arg.
  repeat match goal with
         | |- context [Set_at ?v ?t ?s] =>
           let H := fresh in
           pose proof (Set_at_frame v t s) as H;
           destruct (Set_at v t s); cbn in H; destruct H as (? & ? & ?)
         | |- context [match ?x with _ => _ end] => destruct x
         end; done.
Qed.

Lemma scan_args_frame f vbf args : ∀ sc,
  log (scan_state (snd (scan_args f vbf args sc))) = log (scan_state sc)
  ∧ world (scan_state (snd (scan_args f vbf args sc))) = world (scan_state sc).
Proof.
  induction args as [|arg args IH]; intros sc; cbn [scan_args]; [done|].
  pose proof (handle_arg_frame f vbf sc arg) as [Hl Hw].
  destruct (handle_arg f vbf sc arg) as [[err|] sc']; cbn [snd] in *; [done|].
  destruct (IH sc') as [Hl' Hw']. by rewrite Hl', Hw'.
Qed.

Lemma scan_args_app f vbf pre rest : ∀ sc,
  scan_args f vbf (pre ++ rest) sc
  = match scan_args f vbf pre sc with
    | (Some err, sc') => (Some err, sc')
    | (None, sc') => scan_args f vbf rest sc'
    end.
Proof.
  induction pre as [|arg pre IH]; intros sc; cbn [scan_args app]; [done|].
  destruct (handle_arg f vbf sc arg) as [[err|] sc']; [done|]. apply IH.
Qed.

Lemma bind_params_frame f st :
  log (snd (bind_params f st)) = log st ∧ world (snd (bind_params f st)) = world st
  ∧ output (snd (bind_params f st)) = output st.
Proof.
  unfold bind_params.
  by destruct (fold_left bind_param (range_params (params f)) (∅, ∅, [])) as [[? ?] ?].
Qed.

(** C7, as amended.  (a) When the scan accepts every token of [pre] and
    ends with no flag waiting for its value, a next token that is neither
    a task name, nor a flag (bare or with =value), nor a help token makes
    [Run] write the unknown-argument line, return 2 whatever follows the
    token, and run no task body.  (b) Whenever the scan rejects a token,
    be it unknown or a flag value its parameter refuses, [Run] returns 2
    at that token and runs no task body. *)
Theorem unknown_argument_aborts (fuel : nat) f st :
  let valuesByFlag := fst (bind_params f st) in
  let start := MkScan scanHandler [] false (snd (bind_params f st)) in
  (∀ pre tok post,
     let scanned := scan_args f valuesByFlag pre start in
     fst scanned = None →
     argHandler (snd scanned) = scanHandler →
     tasks f !! tok = None →
     valuesByFlag !! fst (split_eq tok) = None →
     is_help tok = false →
     Run fuel f (pre ++ tok :: post) st
     = Some (CodeInvalidArgs,
             write_output ("unknown argument: " +:+ tok +:+ LF)
               (scan_state (snd scanned)))
     ∧ log (scan_state (snd scanned)) = log st
     ∧ world (scan_state (snd scanned)) = world st)
  ∧ (∀ args,
       is_Some (fst (scan_args f valuesByFlag args start)) →
       ∃ st', Run fuel f args st = Some (CodeInvalidArgs, st')
              ∧ log st' = log st ∧ world st' = world st).
Proof.
  cbn zeta. pose proof (bind_params_frame f st) as (Hbl & Hbw & _).
  split.
  - intros pre tok post Hok Hmain Htask Hflag Hhelp.
    pose proof (scan_args_frame f (fst (bind_params f st)) pre
                  (MkScan scanHandler [] false (snd (bind_params f st)))) as [Hl Hw].
    cbn [scan_state] in Hl, Hw. rewrite Hl, Hw, Hbl, Hbw. split; [|done].
    unfold Run. destruct (bind_params f st) as [vbf st0]; cbn [fst snd] in *.
    rewrite scan_args_app.
    destruct (scan_args f vbf pre _) as [r sc]; cbn [fst snd] in *. subst r.
    cbn [scan_args]. unfold handle_arg. rewrite Hmain.
    rewrite bool_decide_eq_false_2 by (rewrite Htask; by intros [? ?]).
    rewrite Hflag, Hhelp. done.
  - intros args [err Herr].
    pose proof (scan_args_frame f (fst (bind_params f st)) args
                  (MkScan scanHandler [] false (snd (bind_params f st)))) as [Hl Hw].
    cbn [scan_state] in Hl, Hw. unfold Run.
    destruct (bind_params f st) as [vbf st0]; cbn [fst snd] in *.
    destruct (scan_args f vbf args _) as [r sc]; cbn [fst snd] in *. subst r.
    exists (scan_state sc). by rewrite Hl, Hw, Hbl, Hbw.
Qed.

(** ** Valid task graphs *)

(** The task maps that [Register] can build: each task is entered under
    its own non-empty name, the name is new, and every dependency it lists
    is already there. *)
Inductive valid_tasks : gmap string (Task Cmd) → Prop :=
| valid_empty : valid_tasks ∅
| valid_register m task :
    valid_tasks m →
    Name task ≠ "" →
    m !! Name task = None →
    (∀ dep, dep ∈ Dependencies task → is_Some (m !! name dep)) →
    valid_tasks (<[Name task := task]> m).

(** A successful [Register] keeps the task map valid. *)
Lemma Register_valid task (r : Taskflow Val Cmd) :
  valid_tasks (tasks_of r) →
  snd (fst (Register task r)) = None →
  valid_tasks (tasks_of (snd (Register task r))).
Proof.
  intros Hvalid. unfold Register.
  case_bool_decide as Hname; [by intros [=]|].
  destruct (isRegistered_spec (Name task) r) as [Hreg Hsame].
  destruct (isRegistered (Name task) r) as [registered r1]; cbn [fst snd] in Hreg, Hsame.
  subst registered. case_bool_decide as Htaken; [by intros [=]|].
  destruct (check_dependencies_spec (Dependencies task) r1) as [Hsame2 Hdeps].
  destruct (check_dependencies (Dependencies task) r1) as [[err|] r2];
    cbn [fst snd] in *; [by intros [=]|].
  intros _. unfold tasks_of at 1; cbn. rewrite Hsame2, Hsame.
  apply valid_register; [done|done| |].
  - by apply eq_None_not_Some.
  - rewrite <- Hsame. by apply Hdeps.
Qed.

(** A numbering of the tasks in which every task comes after its
    dependencies: the order of registration. *)
Definition ranked (m : gmap string (Task Cmd)) (rank : string → nat) : Prop :=
  ∀ nm task, m !! nm = Some task →
    Name task = nm
    ∧ rank nm < size m
    ∧ ∀ dep, dep ∈ Dependencies task →
        is_Some (m !! name dep) ∧ rank (name dep) < rank nm.

Lemma valid_tasks_ranked m : valid_tasks m → ∃ rank, ranked m rank.
Proof.
  induction 1 as [|m task Hvalid [rank IH] Hname Hnew Hdeps].
  - exists (λ _, 0). intros nm task Hat. by rewrite lookup_empty in Hat.
  - exists (λ nm, if decide (nm = Name task) then size m else rank nm).
    intros nm t Hat. rewrite map_size_insert_None by done.
    destruct (decide (nm = Name task)) as [->|Hne].
    + rewrite lookup_insert_eq in Hat. injection Hat as <-.
      split; [done|]. split; [lia|]. intros dep Hin.
      destruct (Hdeps dep Hin) as [t Ht]. split.
      * rewrite lookup_insert_ne; [by eexists|]. intros Heq. congruence.
      * rewrite decide_False by (intros Heq; congruence).
        by destruct (IH _ _ Ht) as (_ & ? & _).
    + rewrite lookup_insert_ne in Hat by done.
      destruct (IH _ _ Hat) as (Hnm & Hlt & Hd).
      split; [done|]. split; [lia|]. intros dep Hin.
      destruct (Hd dep Hin) as [[t' Ht'] Hr]. split.
      * rewrite lookup_insert_ne; [by eexists|]. intros Heq. congruence.
      * rewrite decide_False by (intros Heq; congruence). done.
Qed.

(** ** Traces of a traversal *)

(** The names of the task bodies a log shows, in the order they ran. *)
Definition invoked (l : list (@Event W)) : list string :=
  l ≫= (λ ev, match ev with
              | EvBody nm _ _ => [nm]
              | EvCheck _ _ => []
              end).

Lemma invoked_app (l1 l2 : list (@Event W)) : invoked (l1 ++ l2) = invoked l1 ++ invoked l2.
Proof. unfold invoked. apply bind_app. Qed.

(** [executed[nm]] holds in the map [e]. *)
Definition exec_true (e : gmap string bool) (nm : string) : Prop :=
  default false (e !! nm) = true.

Lemma exec_true_insert (e : gmap string bool) nm n :
  exec_true (<[nm := true]> e) n ↔ n = nm ∨ exec_true e n.
Proof.
  unfold exec_true. destruct (decide (n = nm)) as [->|Hne].
  - rewrite lookup_insert_eq. cbn. split; [by left|done].
  - rewrite lookup_insert_ne by done. split; [by right|by intros [?|?]].
Qed.

Section Traversal.

Variable f : flowRunner Val Cmd.

(** The names a task lists as dependencies, and whether it has a body. *)
Definition deps_of nm : list string := name <$> Dependencies (task_at f nm).
Definition has_body nm : Prop := is_Some (Command (task_at f nm)).

(** [depends_on a b]: task [a] lists [b] as a dependency. *)
Definition depends_on : relation string := λ a b, b ∈ deps_of a.

(** Every body in [l] runs after the bodies of the task's dependencies,
    given the bodies [seen] before [l]. *)
Fixpoint ordered_from (seen : list string) (l : list (@Event W)) : Prop :=
  match l with
  | [] => True
  | EvBody nm _ _ :: l =>
    (∀ d, d ∈ deps_of nm → has_body d → d ∈ seen) ∧ ordered_from (seen ++ [nm]) l
  | EvCheck _ _ :: l => ordered_from seen l
  end.

Lemma ordered_from_app l1 : ∀ seen l2,
  ordered_from seen (l1 ++ l2)
  ↔ ordered_from seen l1 ∧ ordered_from (seen ++ invoked l1) l2.
Proof.
  induction l1 as [|[nm c|nm r w] l1 IH]; intros seen l2; cbn [app ordered_from].
  - unfold invoked; cbn. rewrite app_nil_r. tauto.
  - rewrite IH. done.
  - rewrite IH. change (invoked (EvBody nm r w :: l1)) with (nm :: invoked l1).
    rewrite <- app_assoc. cbn. tauto.
Qed.

(** The log of a stretch of traversal in which nothing went wrong, from
    world [w0] to world [w]: a task without a body leaves its two checks,
    a task with a body its check, the run of the body, and the check of
    the world the body left; every check found the context alive and no
    body failed. *)
Inductive passes (w0 : W) : list (@Event W) → W → Prop :=
| passes_nil : passes w0 [] w0
| passes_bodiless l w nm :
    passes w0 l w →
    ctx_Err w = None →
    Command (task_at f nm) = None →
    passes w0 (l ++ [EvCheck nm None; EvCheck nm None]) w
| passes_body l w nm command rn h written result after :
    passes w0 l w →
    ctx_Err w = None →
    Command (task_at f nm) = Some command →
    TaskName rn = nm →
    Runner_Run rn command h w = (written, result, after) →
    failed result = false →
    ctx_Err after = None →
    passes w0 (l ++ [EvCheck nm None; EvBody nm result after; EvCheck nm None]) after.

(** The invariant of the traversal between two calls of [run]: [e] is the
    executed map and [l] the log since [runTasks] began in world [w0]. *)
Record Good (e : gmap string bool) (l : list (@Event W)) (w0 w : W) : Prop := {
  good_passes : passes w0 l w;
  good_nodup : NoDup (invoked l);
  good_marked : ∀ n, n ∈ invoked l → exec_true e n;
  good_ran : ∀ n, exec_true e n → has_body n → n ∈ invoked l;
  good_closed : ∀ n d, exec_true e n → d ∈ deps_of n → exec_true e d;
  good_ordered : ordered_from [] l
}.

(** How a traversal ends when [run] returns the error [err]: after a good
    stretch [l0], task [nm], whose dependencies are all executed and which
    is not, meets a fired context before its body, or runs its body and
    then meets a fired context or a failed result. *)
Definition Bad (e : gmap string bool) (l : list (@Event W)) (w0 w : W) (err : string) : Prop :=
  ∃ l0 w1 nm,
    Good e l0 w0 w1
    ∧ ¬ exec_true e nm
    ∧ (∀ d, d ∈ deps_of nm → exec_true e d)
    ∧ ((l = l0 ++ [EvCheck nm (Some err)] ∧ ctx_Err w1 = Some err ∧ w = w1)
       ∨ (∃ command rn h written result,
            ctx_Err w1 = None
            ∧ Command (task_at f nm) = Some command
            ∧ TaskName rn = nm
            ∧ Runner_Run rn command h w1 = (written, result, w)
            ∧ l = l0 ++ [EvCheck nm None; EvBody nm result w; EvCheck nm (ctx_Err w)]
            ∧ (ctx_Err w = Some err
               ∨ (ctx_Err w = None ∧ failed result = true ∧ err = "task failed")))).

Lemma Good_bodiless e l w0 w nm :
  Good e l w0 w →
  ctx_Err w = None →
  Command (task_at f nm) = None →
  (∀ d, d ∈ deps_of nm → exec_true e d) →
  Good (<[nm := true]> e) (l ++ [EvCheck nm None; EvCheck nm None]) w0 w.
Proof.
  intros [Hp Hnd Hm Hr Hc Ho] Hctx Hcmd Hdeps.
  assert (Hinv : invoked (l ++ [EvCheck nm None; EvCheck nm None]) = invoked l).
  { rewrite invoked_app. unfold invoked at 2; cbn. by rewrite app_nil_r. }
  split.
  - by apply passes_bodiless.
  - by rewrite Hinv.
  - intros n Hn. rewrite Hinv in Hn. apply exec_true_insert. right. by apply Hm.
  - intros n [->|Hn]%exec_true_insert Hb.
    + unfold has_body in Hb. rewrite Hcmd in Hb. by destruct Hb.
    + rewrite Hinv. by apply Hr.
  - intros n d [->|Hn]%exec_true_insert Hd; apply exec_true_insert; right.
    + by apply Hdeps.
    + by apply (Hc n).
  - apply ordered_from_app. split; [done|]. cbn. done.
Qed.

Lemma Good_body e l w0 w nm command rn h written result after :
  Good e l w0 w →
  ¬ exec_true e nm →
  ctx_Err w = None →
  Command (task_at f nm) = Some command →
  TaskName rn = nm →
  Runner_Run rn command h w = (written, result, after) →
  failed result = false →
  ctx_Err after = None →
  (∀ d, d ∈ deps_of nm → exec_true e d) →
  Good (<[nm := true]> e)
       (l ++ [EvCheck nm None; EvBody nm result after; EvCheck nm None]) w0 after.
Proof.
  intros [Hp Hnd Hm Hr Hc Ho] Hnot Hctx Hcmd Hrn Hrun Hres Hafter Hdeps.
  assert (Hinv : invoked (l ++ [EvCheck nm None; EvBody nm result after; EvCheck nm None])
                 = invoked l ++ [nm]).
  { by rewrite invoked_app. }
  split.
  - by eapply passes_body.
  - rewrite Hinv. apply NoDup_app. split; [done|]. split; [|apply NoDup_singleton].
    intros n Hn ->%list_elem_of_singleton. apply Hnot. by apply Hm.
  - intros n Hn. rewrite Hinv in Hn. apply exec_true_insert.
    apply elem_of_app in Hn as [Hn| ->%list_elem_of_singleton]; [|by left].
    right. by apply Hm.
  - intros n [->|Hn]%exec_true_insert Hb; rewrite Hinv; apply elem_of_app.
    + right. by apply list_elem_of_singleton.
    + left. by apply Hr.
  - intros n d [->|Hn]%exec_true_insert Hd; apply exec_true_insert; right.
    + by apply Hdeps.
    + by apply (Hc n).
  - apply ordered_from_app. split; [done|]. cbn. split; [|done].
    intros d Hd Hb. apply Hr; [|done]. by apply Hdeps.
Qed.

(** *** The traversal on a ranked task map *)

Variable rank : string → nat.
Hypothesis Hrank : ranked (tasks f) rank.

Lemma task_at_registered nm task : tasks f !! nm = Some task → task_at f nm = task.
Proof. unfold task_at. by intros ->. Qed.

Lemma task_at_unregistered nm : tasks f !! nm = None → task_at f nm = zero_Task.
Proof. unfold task_at. by intros ->. Qed.

Lemma deps_of_registered nm d :
  d ∈ deps_of nm →
  is_Some (tasks f !! nm) ∧ is_Some (tasks f !! d) ∧ rank d < rank nm.
Proof.
  unfold deps_of. intros Hd. destruct (tasks f !! nm) as [task|] eqn:Hat.
  - rewrite (task_at_registered _ _ Hat) in Hd.
    apply list_elem_of_fmap in Hd as (dep & -> & Hin).
    destruct (Hrank _ _ Hat) as (_ & _ & Hdeps).
    destruct (Hdeps dep Hin). by split; [eexists|].
  - rewrite (task_at_unregistered _ Hat) in Hd. cbn in Hd. by apply elem_of_nil in Hd.
Qed.

Lemma has_body_name nm command :
  Command (task_at f nm) = Some command → Name (task_at f nm) = nm.
Proof.
  destruct (tasks f !! nm) as [task|] eqn:Hat.
  - rewrite (task_at_registered _ _ Hat). intros _. by destruct (Hrank _ _ Hat).
  - by rewrite (task_at_unregistered _ Hat).
Qed.

(** A task reached through dependency lists comes strictly earlier. *)
Lemma reach_rank a b :
  rtc depends_on a b → a = b ∨ (is_Some (tasks f !! a) ∧ rank b < rank a).
Proof.
  induction 1 as [|a c b Hstep _ IH]; [by left|]. right.
  destruct (deps_of_registered _ _ Hstep) as (Ha & _ & Hlt). split; [done|].
  destruct IH as [<-|[_ ?]]; lia.
Qed.

(** The fuel [run] needs for a name: more than the rank of a registered
    task, and one unit for a name that is not registered. *)
Definition fits (fuel : nat) nm : Prop :=
  match tasks f !! nm with
  | Some _ => rank nm < fuel
  | None => 0 < fuel
  end.

Lemma fits_size nm : fits (S (size (tasks f))) nm.
Proof.
  unfold fits. destruct (tasks f !! nm) as [task|] eqn:Hat; [|lia].
  destruct (Hrank _ _ Hat) as (_ & ? & _). lia.
Qed.

Lemma fits_dep fuel nm d : fits (S fuel) nm → d ∈ deps_of nm → fits fuel d.
Proof.
  intros Hfit Hd. destruct (deps_of_registered _ _ Hd) as ([t Ht] & [t' Ht'] & Hlt).
  unfold fits in *. rewrite Ht in Hfit. rewrite Ht'. lia.
Qed.

(** What a call leaves behind, started in state [st] with log [base ++ l]
    on behalf of the names [roots]: the log grows by [d], whose bodies are
    reachable from the roots; nothing is unmarked; the output grows; and
    either all went well and the roots are executed, or the traversal
    ended as [Bad] says. *)
Definition Post (base : list (@Event W)) (w0 : W) (roots : list string) st
    (l : list (@Event W)) (res : option string * @State W Val) : Prop :=
  ∃ d,
    log (snd res) = base ++ (l ++ d)
    ∧ (∀ n, n ∈ invoked d → ∃ x, x ∈ roots ∧ rtc depends_on x n)
    ∧ (∀ n, exec_true (executed st) n → exec_true (executed (snd res)) n)
    ∧ (∃ text, output (snd res) = output st +:+ text)
    ∧ match fst res with
      | None =>
        Good (executed (snd res)) (l ++ d) w0 (world (snd res))
        ∧ (∀ x, x ∈ roots → exec_true (executed (snd res)) x)
        ∧ (∀ n, exec_true (executed (snd res)) n →
                exec_true (executed st) n ∨ ∃ x, x ∈ roots ∧ rtc depends_on x n)
      | Some err => Bad (executed (snd res)) (l ++ d) w0 (world (snd res)) err
      end.

(** A loop body returns, and returns as [Post] says, from every state
    that satisfies the invariant. *)
Definition Spec (body : string → @State W Val → option (option string * @State W Val))
    nm : Prop :=
  ∀ st base w0 l,
    log st = base ++ l →
    Good (executed st) l w0 (world st) →
    ∃ res, body nm st = Some res ∧ Post base w0 [nm] st l res.

Lemma Post_roots base w0 roots roots' st l res :
  (∀ x, x ∈ roots → x ∈ roots') →
  fst res ≠ None →
  Post base w0 roots st l res → Post base w0 roots' st l res.
Proof.
  intros Hsub Herr (d & Hlog & Hreach & Hmono & Hout & Hres).
  exists d. split_and!; try done.
  - intros n Hn. destruct (Hreach n Hn) as (x & Hx & Hr). exists x. auto.
  - by destruct (fst res).
Qed.

Lemma append_empty_r (a : string) : a +:+ "" = a.
Proof.
  induction a as [|x a IH]; [done|]. change (String x (a +:+ "") = String x a).
  by rewrite IH.
Qed.

Lemma loop_spec body xs :
  (∀ x, x ∈ xs → Spec body x) →
  ∀ st base w0 l,
    log st = base ++ l →
    Good (executed st) l w0 (world st) →
    ∃ res, range_until_error body xs st = Some res ∧ Post base w0 xs st l res.
Proof.
  induction xs as [|x xs IH]; intros Hbody st base w0 l Hlog Hgood;
    cbn [range_until_error].
  - exists (None, st). split; [done|]. exists []. cbn [fst snd].
    rewrite app_nil_r. split_and!; try done.
    + intros n Hn. by apply elem_of_nil in Hn.
    + exists "". by rewrite append_empty_r.
    + intros y Hy. by apply elem_of_nil in Hy.
    + by left.
  - destruct (Hbody x ltac:(by left) st base w0 l Hlog Hgood) as ([r1 st1] & -> & Hpost1).
    destruct r1 as [err|].
    + exists (Some err, st1). split; [done|].
      eapply Post_roots; [| |exact Hpost1]; [|done].
      intros y ->%list_elem_of_singleton. by left.
    + destruct Hpost1 as (d1 & Hlog1 & Hreach1 & Hmono1 & [t1 Hout1] & Hg1 & Hx1 & Hnew1).
      cbn [fst snd] in *.
      rewrite app_assoc in Hlog1.
      destruct (IH ltac:(intros y Hy; apply Hbody; by right) st1 base w0 (l ++ d1)
                  ltac:(by rewrite Hlog1, app_assoc) Hg1)
        as ([r2 st2] & -> & d2 & Hlog2 & Hreach2 & Hmono2 & [t2 Hout2] & Hres2).
      cbn [fst snd] in *.
      exists (r2, st2). split; [done|]. exists (d1 ++ d2). cbn [fst snd].
      split; [by rewrite Hlog2, !app_assoc|].
      split.
      { intros n Hn. rewrite invoked_app in Hn.
        apply elem_of_app in Hn as [Hn|Hn].
        - destruct (Hreach1 n Hn) as (y & ->%list_elem_of_singleton & Hr).
          exists x. split; [by left|done].
        - destruct (Hreach2 n Hn) as (y & Hy & Hr). exists y. split; [by right|done]. }
      split; [by auto|].
      split; [exists (t1 +:+ t2); by rewrite Hout2, Hout1, append_assoc|].
      rewrite app_assoc. destruct r2 as [err|]; [done|].
      destruct Hres2 as (Hg2 & Hx2 & Hnew2). split; [done|]. split.
      { intros y [->|Hy]%elem_of_cons; [|by auto].
        apply Hmono2, Hx1. by apply list_elem_of_singleton. }
      intros n Hn. destruct (Hnew2 n Hn) as [Hn1|(y & Hy & Hr)].
      * destruct (Hnew1 n Hn1) as [?|(y & ->%list_elem_of_singleton & Hr)]; [by left|].
        right. exists x. split; [by left|done].
      * right. exists y. split; [by right|done].
Qed.

Lemma run_spec fuel : ∀ nm, fits fuel nm → Spec (run fuel f) nm.
Proof.
  induction fuel as [|fuel IH]; intros nm Hfit.
  { unfold fits in Hfit. destruct (tasks f !! nm); lia. }
  intros st base w0 l Hlog Hgood. cbn [run].
  destruct (is_executed st nm) eqn:Hex.
  { exists (None, st). split; [done|]. exists []. cbn [fst snd].
    rewrite app_nil_r. split_and!; try done.
    - intros n Hn. by apply elem_of_nil in Hn.
    - exists "". by rewrite append_empty_r.
    - by intros x ->%list_elem_of_singleton.
    - by left. }
  assert (Hnot : ¬ exec_true (executed st) nm).
  { unfold exec_true. unfold is_executed in Hex. by rewrite Hex. }
  destruct (loop_spec (run fuel f) (deps_of nm)
              ltac:(intros d Hd; apply IH; by eapply fits_dep)
              st base w0 l Hlog Hgood)
    as ([r1 st1] & Hloop & Hpost1).
  unfold deps_of in Hloop. rewrite Hloop. destruct r1 as [err|].
  { exists (Some err, st1). split; [done|].
    destruct Hpost1 as (d & ? & Hreach & ? & ? & ?). exists d. split_and!; try done.
    intros n Hn. destruct (Hreach n Hn) as (x & Hx & Hr).
    exists nm. split; [by left|]. by eapply rtc_l. }
  destruct Hpost1 as (d1 & Hlog1 & Hreach1 & Hmono1 & [t1 Hout1] & Hg1 & Hdeps1 & Hnew1).
  cbn [fst snd] in *.
  assert (Hreach1' : ∀ n, n ∈ invoked d1 → ∃ x, x ∈ [nm] ∧ rtc depends_on x n).
  { intros n Hn. destruct (Hreach1 n Hn) as (x & Hx & Hr).
    exists nm. split; [by left|]. by eapply rtc_l. }
  assert (Hnot1 : ¬ exec_true (executed st1) nm).
  { intros Hn. destruct (Hnew1 nm Hn) as [?|(x & Hx & Hr)]; [done|].
    destruct (deps_of_registered _ _ Hx) as (_ & _ & Hlt).
    destruct (reach_rank _ _ Hr) as [->|[_ ?]]; lia. }
  destruct (ctx_Err (world st1)) as [err|] eqn:Hctx1.
  { (* the context has fired before the body *)
    eexists. split; [done|]. exists (d1 ++ [EvCheck nm (Some err)]). cbn [fst snd log_event log
      executed output world].
    split; [by rewrite Hlog1, <- !app_assoc|].
    split.
    { intros n Hn. rewrite invoked_app in Hn. unfold invoked at 2 in Hn; cbn in Hn.
      rewrite app_nil_r in Hn. auto. }
    split; [done|]. split; [by eexists|].
    exists (l ++ d1), (world st1), nm. split_and!; try done.
    left. by rewrite app_assoc. }
  destruct (Command (task_at f nm)) as [command|] eqn:Hcmd.
  2:{ (* a task without a body *)
    unfold runTask. rewrite Hcmd. cbn [log_event world]. rewrite Hctx1. cbn [negb].
    eexists. split; [done|]. exists (d1 ++ [EvCheck nm None; EvCheck nm None]).
    cbn [fst snd log_event log executed output world with_executed].
    split; [by rewrite Hlog1, <- !app_assoc|].
    split.
    { intros n Hn. rewrite invoked_app in Hn. unfold invoked at 2 in Hn; cbn in Hn.
      rewrite app_nil_r in Hn. auto. }
    split; [intros n Hn; apply exec_true_insert; by auto|].
    split; [by eexists|].
    split; [rewrite app_assoc; by apply Good_bodiless|].
    split.
    { intros x ->%list_elem_of_singleton. apply exec_true_insert. by left. }
    intros n [->|Hn]%exec_true_insert.
    - right. exists nm. split; [by left|done].
    - destruct (Hnew1 n Hn) as [?|(x & Hx & Hr)]; [by left|].
      right. exists nm. split; [by left|]. by eapply rtc_l. }
  (* a task with a body *)
  pose proof (has_body_name _ _ Hcmd) as Hname.
  set (st1' := log_event (EvCheck nm None) st1).
  destruct (Runner_Run (task_runner f (task_at f nm) st1') command (heap st1')
              (world st1'))
    as [[written result] after] eqn:Hrun.
  destruct (runTask_body f (task_at f nm) st1' command written result after Hcmd Hrun)
    as (Hpassed & Hworld & Hlog2 & Hexec2 & _ & _ & Hout2).
  destruct (runTask f (task_at f nm) st1') as [passed st2]. cbn [fst snd] in *.
  rewrite Hname in Hlog2. subst passed.
  change (output st1') with (output st1) in Hout2.
  change (executed st1') with (executed st1) in Hexec2.
  change (log st1') with (log st1 ++ [EvCheck nm None]) in Hlog2.
  change (world st1') with (world st1) in Hrun.
  assert (Hout2' : ∃ text, output st2 = output st +:+ text).
  { destruct (_ && _) in Hout2.
    - exists t1. by rewrite Hout2.
    - eexists. by rewrite Hout2, Hout1, append_assoc. }
  assert (Hrn : TaskName (task_runner f (task_at f nm) st1') = nm) by done.
  set (d := d1 ++ [EvCheck nm None; EvBody nm result after; EvCheck nm (ctx_Err after)]).
  assert (Hlogd : log st2 ++ [EvCheck nm (ctx_Err after)] = base ++ (l ++ d)).
  { rewrite Hlog2, Hlog1. subst d. by rewrite <- !app_assoc. }
  assert (Hinvd : ∀ n, n ∈ invoked d → ∃ x, x ∈ [nm] ∧ rtc depends_on x n).
  { intros n Hn. subst d. rewrite invoked_app in Hn.
    apply elem_of_app in Hn as [Hn| ->%list_elem_of_singleton]; [by auto|].
    exists nm. split; [by left|done]. }
  cbn [log_event world]. rewrite Hworld.
  destruct (ctx_Err after) as [err|] eqn:Hctx2.
  { (* the context has fired during the body *)
    eexists. split; [done|]. exists d.
    cbn [fst snd log_event log executed output world]. rewrite Hexec2, Hworld.
    split_and!; try done.
    exists (l ++ d1), (world st1), nm. split_and!; try done.
    right. exists command, (task_runner f (task_at f nm) st1'), (heap st1'), written, result.
    split_and!; try done.
    - subst d. by rewrite Hctx2, app_assoc.
    - by left. }
  destruct (failed result) eqn:Hfailed; cbn [negb].
  { (* the body has failed *)
    eexists. split; [done|]. exists d.
    cbn [fst snd log_event log executed output world]. rewrite Hexec2, Hworld.
    split_and!; try done.
    exists (l ++ d1), (world st1), nm. split_and!; try done.
    right. exists command, (task_runner f (task_at f nm) st1'), (heap st1'), written, result.
    split_and!; try done.
    - subst d. by rewrite Hctx2, app_assoc.
    - by right. }
  (* the body has passed or skipped *)
  eexists. split; [done|]. exists d.
  cbn [fst snd log_event log executed output world with_executed].
  rewrite Hexec2, Hworld.
  split; [done|]. split; [done|].
  split; [intros n Hn; apply exec_true_insert; by auto|].
  split; [done|].
  split; [subst d; rewrite app_assoc; by eapply Good_body|].
  split.
  { intros x ->%list_elem_of_singleton. apply exec_true_insert. by left. }
  intros n [->|Hn]%exec_true_insert.
  - right. exists nm. split; [by left|done].
  - destruct (Hnew1 n Hn) as [?|(x & Hx & Hr)]; [by left|].
    right. exists nm. split; [by left|]. by eapply rtc_l.
Qed.

(** *** Reading a log *)

Lemma split_in_app {A} (l t l1 l2 : list A) x :
  l ++ t = l1 ++ x :: l2 →
  (∃ k, l = l1 ++ x :: k ∧ l2 = k ++ t) ∨ (∃ k, l1 = l ++ k ∧ t = k ++ x :: l2).
Proof.
  revert l. induction l1 as [|b l1 IH]; intros [|a l] Heq; cbn in Heq.
  - right. by exists [].
  - left. injection Heq as -> <-. by exists l.
  - right. by exists (b :: l1).
  - injection Heq as -> Heq. destruct (IH _ Heq) as [(k & -> & ->)|(k & -> & ->)].
    + left. by exists k.
    + right. by exists k.
Qed.

(** In a good stretch every check found the context alive and no body
    failed. *)
Definition uneventful (ev : @Event W) : Prop :=
  match ev with
  | EvCheck _ c => c = None
  | EvBody _ result after => failed result = false ∧ ctx_Err after = None
  end.

Lemma passes_uneventful w0 l w : passes w0 l w → Forall uneventful l.
Proof.
  induction 1; [constructor|..]; apply Forall_app; split; try done;
    repeat constructor; done.
Qed.


(** A body stands between the check before it and the check of the world
    it leaves. *)
Definition surrounded (l : list (@Event W)) : Prop :=
  ∀ l1 nm result after l2,
    l = l1 ++ EvBody nm result after :: l2 →
    (∃ l1', l1 = l1' ++ [EvCheck nm None])
    ∧ (∃ l2', l2 = EvCheck nm (ctx_Err after) :: l2').

Lemma surrounded_app_checks l nm c :
  surrounded l → surrounded (l ++ [EvCheck nm c]).
Proof.
  intros Hl l1 n r w l2 Heq.
  apply split_in_app in Heq as [(k & -> & ->)|(k & -> & Hk)].
  - destruct (Hl _ _ _ _ _ eq_refl) as [? [l2' ->]]. split; [done|]. by eexists.
  - destruct k as [|? k]; simplify_eq/=. by destruct k.
Qed.

Lemma surrounded_app_body l nm result after :
  surrounded l →
  surrounded (l ++ [EvCheck nm None; EvBody nm result after; EvCheck nm (ctx_Err after)]).
Proof.
  intros Hl l1 n r w l2 Heq.
  apply split_in_app in Heq as [(k & -> & ->)|(k & -> & Hk)].
  - destruct (Hl _ _ _ _ _ eq_refl) as [? [l2' ->]]. split; [done|]. by eexists.
  - destruct k as [|? [|? [|? k]]]; simplify_eq/=.
    + split; [by exists l|by exists []].
    + by destruct k.
Qed.

Lemma passes_surrounded w0 l w : passes w0 l w → surrounded l.
Proof.
  induction 1 as [|l w nm Hp IH Hctx Hcmd
                  |l w nm command rn h written result after Hp IH Hctx Hcmd Hrn Hrun Hres Hafter].
  - intros l1 n r w l2 Heq. by destruct l1.
  - change (l ++ [EvCheck nm None; EvCheck nm None])
      with (l ++ [EvCheck nm None] ++ [EvCheck nm None]).
    rewrite app_assoc. by do 2 apply surrounded_app_checks.
  - replace (EvCheck nm None :: EvBody nm result after :: [EvCheck nm None])
      with [EvCheck nm None; EvBody nm result after; EvCheck nm (ctx_Err after)]
      by (by rewrite Hafter).
    by apply surrounded_app_body.
Qed.

Lemma ordered_split l l1 nm result after l2 :
  ordered_from [] l →
  l = l1 ++ EvBody nm result after :: l2 →
  ∀ d, d ∈ deps_of nm → has_body d → d ∈ invoked l1.
Proof.
  intros Hord -> d Hd Hb. apply ordered_from_app in Hord as [_ Hord].
  cbn in Hord. by apply Hord.
Qed.

Lemma executed_closed e l w0 w a b :
  Good e l w0 w → exec_true e a → rtc depends_on a b → exec_true e b.
Proof.
  intros Hg Ha Hr. induction Hr as [|a c b Hstep _ IH]; [done|].
  apply IH. by eapply good_closed.
Qed.

Lemma depends_rank a b : tc depends_on a b → rank b < rank a.
Proof.
  induction 1 as [a b Hstep|a c b Hstep _ IH].
  - by destruct (deps_of_registered _ _ Hstep) as (_ & _ & ?).
  - destruct (deps_of_registered _ _ Hstep) as (_ & _ & ?). lia.
Qed.

(** The log of a traversal that ended with an error. *)
Lemma Bad_invoked e l w0 w err :
  Bad e l w0 w err → NoDup (invoked l) ∧ ordered_from [] l ∧ surrounded l.
Proof.
  intros (l0 & w1 & nm & Hg & Hnot & Hdeps & Hend).
  pose proof (passes_surrounded _ _ _ (good_passes _ _ _ _ Hg)) as Hsur.
  destruct Hend as [(-> & _ & _)|(command & rn & h & written & result & _ & _ & _ & _ & -> & _)].
  - rewrite invoked_app. unfold invoked at 2; cbn. rewrite app_nil_r.
    split; [apply Hg|]. split; [|by apply surrounded_app_checks].
    apply ordered_from_app. split; [apply Hg|done].
  - rewrite invoked_app.
    change (invoked [EvCheck nm None; EvBody nm result w; EvCheck nm (ctx_Err w)])
      with [nm].
    split; [|split; [|by apply surrounded_app_body]].
    + apply NoDup_app. split; [apply Hg|]. split; [|apply NoDup_singleton].
      intros n Hn ->%list_elem_of_singleton. apply Hnot. by eapply good_marked.
    + apply ordered_from_app. split; [apply Hg|]. cbn. split; [|done].
      intros d Hd Hb. eapply good_ran; [done| |done]. by apply Hdeps.
Qed.

(** A traversal that ended with an error ends in one of three ways. *)
Lemma Bad_last e l w0 w err :
  Bad e l w0 w err →
  ∃ l0 nm,
    Forall uneventful l0
    ∧ ¬ exec_true e nm
    ∧ (∀ n, n ∈ invoked l0 → exec_true e n ∧ ¬ tc depends_on n nm)
    ∧ ((l = l0 ++ [EvCheck nm (Some err)] ∧ ctx_Err w = Some err)
       ∨ (∃ result,
            l = l0 ++ [EvCheck nm None; EvBody nm result w; EvCheck nm (ctx_Err w)]
            ∧ (ctx_Err w = Some err
               ∨ (ctx_Err w = None ∧ failed result = true ∧ err = "task failed")))).
Proof.
  intros (l0 & w1 & nm & Hg & Hnot & Hdeps & Hend).
  exists l0, nm. split; [by eapply passes_uneventful, good_passes|].
  split; [done|]. split.
  { intros n Hn. pose proof (good_marked _ _ _ _ Hg n Hn) as Hexec.
    split; [done|]. intros Htc. apply Hnot.
    eapply executed_closed; [done..|]. by apply tc_rtc. }
  destruct Hend as [(-> & ? & ->)|(command & rn & h & written & result & _ & _ & _ & _ & -> & ?)].
  - by left.
  - right. by exists result.
Qed.

(** *** [runTasks] on a ranked task map *)

Lemma fits_enough fuel nm : size (tasks f) < fuel → fits fuel nm.
Proof.
  intros Hfuel. pose proof (fits_size nm) as Hfit. unfold fits in *.
  destruct (tasks f !! nm); lia.
Qed.

Lemma Good_start (w0 : W) : Good ∅ [] w0 w0.
Proof.
  split.
  - constructor.
  - constructor.
  - intros n Hn. by apply elem_of_nil in Hn.
  - intros n Hn. unfold exec_true in Hn. by rewrite lookup_empty in Hn.
  - intros n d Hn. unfold exec_true in Hn. by rewrite lookup_empty in Hn.
  - done.
Qed.

(** The line [runTasks] prints last. *)
Definition report (err : option string) (since : Z) : string :=
  match err with
  | Some err => err +:+ TAB +:+ fmt_seconds 3 since +:+ "s" +:+ LF
  | None => "ok" +:+ TAB +:+ fmt_seconds 3 since +:+ "s" +:+ LF
  end.

Lemma runTasks_spec fuel requested st :
  size (tasks f) < fuel →
  ∃ err st1,
    range_until_error (run fuel f) requested (with_executed ∅ st) = Some (err, st1)
    ∧ runTasks fuel f requested st
      = Some (match err with Some _ => CodeFailure | None => CodePass end,
              write_output (report err (time_Now (world st1) - time_Now (world st))) st1)
    ∧ Post (log st) (world st) requested (with_executed ∅ st) [] (err, st1).
Proof.
  intros Hfuel.
  destruct (loop_spec (run fuel f) requested
              ltac:(intros x _; apply run_spec; by apply fits_enough)
              (with_executed ∅ st) (log st) (world st) []
              ltac:(by rewrite app_nil_r) (Good_start _))
    as ([err st1] & Hloop & Hpost).
  exists err, st1. split; [done|]. split; [|done].
  unfold runTasks. rewrite Hloop. by destruct err.
Qed.

(** *** A context that has fired before the traversal starts *)

Lemma loop_fired (body : string → @State W Val → option (option string * @State W Val))
    xs st err :
  (∀ x, x ∈ xs →
     body x st = Some (None, st)
     ∨ ∃ m, body x st = Some (Some err, log_event (EvCheck m (Some err)) st)) →
  range_until_error body xs st = Some (None, st)
  ∨ ∃ m, range_until_error body xs st
         = Some (Some err, log_event (EvCheck m (Some err)) st).
Proof.
  intros Hbody. induction xs as [|x xs IH]; cbn [range_until_error]; [by left|].
  destruct (Hbody x ltac:(by left)) as [->|[m ->]].
  - apply IH. intros y Hy. apply Hbody. by right.
  - right. by exists m.
Qed.

Lemma run_fired fuel : ∀ nm st err,
  fits fuel nm →
  ctx_Err (world st) = Some err →
  (is_executed st nm = true ∧ run fuel f nm st = Some (None, st))
  ∨ (is_executed st nm = false
     ∧ ∃ m, run fuel f nm st = Some (Some err, log_event (EvCheck m (Some err)) st)).
Proof.
  induction fuel as [|fuel IH]; intros nm st err Hfit Hctx.
  { unfold fits in Hfit. destruct (tasks f !! nm); lia. }
  cbn [run]. destruct (is_executed st nm) eqn:Hex; [by left|]. right.
  split; [done|].
  destruct (loop_fired (run fuel f) (deps_of nm) st err) as [Hloop|[m Hloop]].
  - intros x Hx.
    destruct (IH x st err ltac:(by eapply fits_dep) Hctx) as [[_ ?]|[_ ?]]; auto.
  - unfold deps_of in Hloop. rewrite Hloop, Hctx. by exists nm.
  - unfold deps_of in Hloop. rewrite Hloop. by exists m.
Qed.

Lemma runTasks_fired fuel x requested st err :
  size (tasks f) < fuel →
  ctx_Err (world st) = Some err →
  ∃ m st', runTasks fuel f (x :: requested) st = Some (CodeFailure, st')
           ∧ log st' = log st ++ [EvCheck m (Some err)].
Proof.
  intros Hfuel Hctx. unfold runTasks. cbn [range_until_error].
  destruct (run_fired fuel x (with_executed ∅ st) err (fits_enough _ _ Hfuel) Hctx)
    as [[Hex _]|[_ [m ->]]].
  - unfold is_executed in Hex. cbn in Hex. by rewrite lookup_empty in Hex.
  - exists m. eexists. split; [done|]. done.
Qed.

End Traversal.

(** ** The traversal on a valid task graph *)

(** C1. On a valid task graph, for every list of requested names,
    [runTasks] returns; the bodies it ran during the call are pairwise
    distinct, each belongs to a task reachable from a requested name
    through dependency lists, and each ran after the bodies of all the
    dependencies its task lists. *)
Theorem each_task_runs_at_most_once f (fuel : nat) (requested : list string) st :
  valid_tasks (tasks f) →
  size (tasks f) < fuel →
  ∃ code st' d,
    runTasks fuel f requested st = Some (code, st')
    ∧ log st' = log st ++ d
    ∧ NoDup (invoked d)
    ∧ (∀ nm, nm ∈ invoked d → ∃ x, x ∈ requested ∧ rtc (depends_on f) x nm)
    ∧ (∀ l1 nm result after l2 dep,
         d = l1 ++ EvBody nm result after :: l2 →
         dep ∈ deps_of f nm → has_body f dep → dep ∈ invoked l1).
Proof.
  intros Hvalid Hfuel. destruct (valid_tasks_ranked _ Hvalid) as [rank Hrank].
  destruct (runTasks_spec f rank Hrank fuel requested st Hfuel)
    as (err & st1 & _ & Hrun & d & Hlog & Hreach & _ & _ & Hres).
  cbn [fst snd app] in *.
  eexists _, _, d. split; [exact Hrun|]. split; [done|].
  assert (NoDup (invoked d) ∧ ordered_from f [] d) as [Hnd Hord].
  { destruct err as [err|].
    - by destruct (Bad_invoked f _ _ _ _ _ Hres) as (? & ? & _).
    - split; apply Hres. }
  split; [done|]. split; [done|].
  intros l1 nm result after l2 dep Heq. by eapply ordered_split.
Qed.

(** C2. On a valid task graph, when a body that [runTasks] ran reports
    failure, the log ends right after it, with the check of the world the
    body left: no later body or task is attempted.  No body that ran
    belongs to a task that depends on the failing one, directly or through
    other tasks.  [runTasks] returns 1, and the last thing it writes is
    the error, a tab, the elapsed seconds and "s"; the error is the
    context's when the context has fired, "task failed" otherwise. *)
Theorem failure_halts_traversal f (fuel : nat) (requested : list string) st :
  valid_tasks (tasks f) →
  size (tasks f) < fuel →
  ∃ code st' d,
    runTasks fuel f requested st = Some (code, st')
    ∧ log st' = log st ++ d
    ∧ ∀ l1 nm result after l2,
        d = l1 ++ EvBody nm result after :: l2 →
        failed result = true →
        l2 = [EvCheck nm (ctx_Err after)]
        ∧ (∀ n, n ∈ invoked d → ¬ tc (depends_on f) n nm)
        ∧ code = CodeFailure
        ∧ ∃ out err,
            output st'
            = out +:+ err +:+ TAB
                  +:+ fmt_seconds 3 (time_Now (world st') - time_Now (world st))
                  +:+ "s" +:+ LF
            ∧ (∃ text, out = output st +:+ text)
            ∧ (ctx_Err after = Some err
               ∨ (ctx_Err after = None ∧ err = "task failed")).
Proof.
  intros Hvalid Hfuel. destruct (valid_tasks_ranked _ Hvalid) as [rank Hrank].
  destruct (runTasks_spec f rank Hrank fuel requested st Hfuel)
    as (err & st1 & _ & Hrun & d & Hlog & _ & _ & Hout & Hres).
  cbn [fst snd app] in *.
  eexists _, _, d. split; [exact Hrun|]. split; [done|].
  intros l1 nm result after l2 Heq Hfailed.
  destruct err as [err|].
  2:{ destruct Hres as (Hg & _).
    pose proof (passes_uneventful f _ _ _ (good_passes f _ _ _ _ Hg)) as Hun.
    rewrite Heq in Hun. apply Forall_app in Hun as [_ Hun].
    apply Forall_cons in Hun as [[Hun _] _]. congruence. }
  destruct (Bad_last _ _ _ _ _ _ Hres) as (l0 & bad & Hun & Hnot & Hl0 & Hend).
  assert (Hshape : ∃ result', d = l0 ++ [EvCheck bad None; EvBody bad result' (world st1);
                                         EvCheck bad (ctx_Err (world st1))]
            ∧ nm = bad ∧ result = result' ∧ after = world st1
            ∧ l2 = [EvCheck bad (ctx_Err (world st1))]
            ∧ (ctx_Err (world st1) = Some err
               ∨ (ctx_Err (world st1) = None ∧ failed result' = true ∧ err = "task failed"))).
  { destruct Hend as [[Hd _]|(result' & Hd & Herr)].
    - rewrite Hd in Heq. apply split_in_app in Heq as [(k & -> & _)|(k & _ & Hk)].
      + apply Forall_app in Hun as [_ Hun]. apply Forall_cons in Hun as [[Hun _] _].
        congruence.
      + destruct k as [|? k]; simplify_eq/=. by destruct k.
    - exists result'. split; [done|]. rewrite Hd in Heq.
      apply split_in_app in Heq as [(k & -> & _)|(k & _ & Hk)].
      + apply Forall_app in Hun as [_ Hun]. apply Forall_cons in Hun as [[Hun _] _].
        congruence.
      + destruct k as [|? [|? [|? k]]]; simplify_eq/=; [done|by destruct k]. }
  destruct Hshape as (result' & Hd & -> & <- & -> & -> & Herr).
  split; [done|]. split.
  { intros n Hn. rewrite Hd, invoked_app in Hn.
    apply elem_of_app in Hn as [Hn| ->%list_elem_of_singleton].
    - by apply Hl0.
    - intros Htc. pose proof (depends_rank f rank Hrank _ _ Htc). lia. }
  split; [done|].
  destruct Hout as [text Hout].
  exists (output st1), err. cbn [write_output output world report].
  split; [done|]. split; [by exists text|].
  destruct Herr as [?|(? & _ & ?)]; auto.
Qed.

(** C8. On a valid task graph: (a) every body in the log of [runTasks]
    stands right after a check that found the context alive and right
    before the check of the world the body left; (b) a check that finds
    the context fired is the last event, so no further body starts; its
    task is not marked executed, [runTasks] returns 1 and the last thing
    it writes is that error with the elapsed time; (c) if the context has
    fired before [runTasks] is called with a task to run, that check comes
    first and no body runs at all. *)
Theorem cancellation_stops_traversal f (fuel : nat) (requested : list string) st :
  valid_tasks (tasks f) →
  size (tasks f) < fuel →
  ∃ code st' d,
    runTasks fuel f requested st = Some (code, st')
    ∧ log st' = log st ++ d
    ∧ (∀ l1 nm result after l2,
         d = l1 ++ EvBody nm result after :: l2 →
         (∃ l1', l1 = l1' ++ [EvCheck nm None])
         ∧ (∃ l2', l2 = EvCheck nm (ctx_Err after) :: l2'))
    ∧ (∀ l1 nm err l2,
         d = l1 ++ EvCheck nm (Some err) :: l2 →
         l2 = []
         ∧ ¬ exec_true (executed st') nm
         ∧ code = CodeFailure
         ∧ ∃ out,
             output st'
             = out +:+ err +:+ TAB
                   +:+ fmt_seconds 3 (time_Now (world st') - time_Now (world st))
                   +:+ "s" +:+ LF)
    ∧ (∀ err,
         ctx_Err (world st) = Some err →
         requested ≠ [] →
         ∃ nm, d = [EvCheck nm (Some err)]).
Proof.
  intros Hvalid Hfuel. destruct (valid_tasks_ranked _ Hvalid) as [rank Hrank].
  destruct (runTasks_spec f rank Hrank fuel requested st Hfuel)
    as (err & st1 & _ & Hrun & d & Hlog & _ & _ & _ & Hres).
  cbn [fst snd app] in *.
  eexists _, _, d. split; [exact Hrun|]. split; [done|].
  split; [|split].
  - destruct err as [err|].
    + by destruct (Bad_invoked f _ _ _ _ _ Hres) as (_ & _ & ?).
    + destruct Hres as (Hg & _). eapply passes_surrounded, good_passes, Hg.
  - intros l1 nm err' l2 Heq. destruct err as [err|].
    2:{ destruct Hres as (Hg & _).
      pose proof (passes_uneventful f _ _ _ (good_passes f _ _ _ _ Hg)) as Hun.
      rewrite Heq in Hun. apply Forall_app in Hun as [_ Hun].
      by apply Forall_cons in Hun as [Hun _]. }
    destruct (Bad_last _ _ _ _ _ _ Hres) as (l0 & bad & Hun & Hnot & _ & Hend).
    assert (l2 = [] ∧ nm = bad ∧ err' = err) as (-> & -> & ->).
    { destruct Hend as [[Hd _]|(result & Hd & Herr)]; rewrite Hd in Heq;
        apply split_in_app in Heq as [(k & -> & _)|(k & _ & Hk)].
      - apply Forall_app in Hun as [_ Hun]. by apply Forall_cons in Hun as [Hun _].
      - destruct k as [|? k]; simplify_eq/=; [done|by destruct k].
      - apply Forall_app in Hun as [_ Hun]. by apply Forall_cons in Hun as [Hun _].
      - destruct k as [|? [|? [|? k]]]; simplify_eq/=; [|by destruct k].
        destruct Herr as [?|(? & _)]; by simplify_eq. }
    split; [done|]. split; [done|]. split; [done|]. by exists (output st1).
  - intros err' Hctx Hne. destruct requested as [|x requested]; [done|].
    destruct (runTasks_fired f rank Hrank fuel x requested st err' Hfuel Hctx)
      as (m & st'' & Hrun' & Hlog').
    rewrite Hrun in Hrun'. injection Hrun' as _ <-.
    cbn [write_output log] in Hlog'. rewrite Hlog in Hlog'.
    apply app_inv_head in Hlog'. by exists m.
Qed.



End Properties.

(* ===================================================================== *)
(** * The theorems on the sample instance *)
(* ===================================================================== *)

Section Instances.

Import Sample.

Lemma graph_valid a b c d : valid_tasks (graph a b c d).
Proof.
  unfold graph.
  apply (valid_register _ (task "d" d ["b"; "c"])); [|done|done|].
  apply (valid_register _ (task "c" c ["a"])); [|done|done|].
  apply (valid_register _ (task "b" b ["a"])); [|done|done|].
  apply (valid_register _ (task "a" a [])); [constructor|done|done|].
  all: intros dep Hin; cbn in Hin;
    repeat (apply elem_of_cons in Hin as [->|Hin]); try (by apply elem_of_nil in Hin);
    vm_compute; eauto.
Qed.

Lemma graph_size a b c d : size (graph a b c d) < 5.
Proof.
  unfold graph. rewrite !map_size_insert_None, map_size_empty; [lia|done..].
Qed.


(** The state [Run] reaches after binding the sample's verbose parameter;
    the parameter is off. *)
Definition quiet_start : State (W := SampleWorld) (Val := SampleValue) :=
  snd (bind_params (runner diamond) start).

Lemma each_task_runs_at_most_once_witness :
  valid_tasks (tasks (runner diamond))
  ∧ size (tasks (runner diamond)) < 5
  ∧ ∃ code st' d,
      runTasks 5 (runner diamond) ["d"; "b"; "d"] quiet_start = Some (code, st')
      ∧ log st' = log quiet_start ++ d
      ∧ NoDup (invoked d)
      ∧ (∀ nm, nm ∈ invoked d →
           ∃ x, x ∈ ["d"; "b"; "d"] ∧ rtc (depends_on (runner diamond)) x nm)
      ∧ (∀ l1 nm result after l2 dep,
           d = l1 ++ EvBody nm result after :: l2 →
           dep ∈ deps_of (runner diamond) nm → has_body (runner diamond) dep →
           dep ∈ invoked l1).
Proof.
  split; [apply graph_valid|]. split; [apply graph_size|].
  apply (each_task_runs_at_most_once (runner diamond) 5 ["d"; "b"; "d"] quiet_start).
  - apply graph_valid.
  - apply graph_size.
Defined.

(** The diamond in which the body of c fails. *)
Definition c_fails : gmap string (Task SampleCommand) :=
  graph (body "one") (body "two") (failing "three") (body "four").

Lemma failure_halts_traversal_witness :
  valid_tasks (tasks (runner c_fails))
  ∧ size (tasks (runner c_fails)) < 5
  ∧ ∃ code st' d,
      runTasks 5 (runner c_fails) ["d"; "b"] quiet_start = Some (code, st')
      ∧ log st' = log quiet_start ++ d
      ∧ ∀ l1 nm result after l2,
          d = l1 ++ EvBody nm result after :: l2 →
          failed result = true →
          l2 = [EvCheck nm (ctx_Err after)]
          ∧ (∀ n, n ∈ invoked d → ¬ tc (depends_on (runner c_fails)) n nm)
          ∧ code = CodeFailure
          ∧ ∃ out err,
              output st'
              = out +:+ err +:+ TAB
                    +:+ fmt_seconds 3 (time_Now (world st') - time_Now (world quiet_start))
                    +:+ "s" +:+ LF
              ∧ (∃ text, out = output quiet_start +:+ text)
              ∧ (ctx_Err after = Some err
                 ∨ (ctx_Err after = None ∧ err = "task failed")).
Proof.
  split; [apply graph_valid|]. split; [apply graph_size|].
  apply (failure_halts_traversal (runner c_fails) 5 ["d"; "b"] quiet_start).
  - apply graph_valid.
  - apply graph_size.
Defined.

(** The failing task c of [c_fails], run with the verbose switch off. *)
Lemma quiet_task_output_witness :
  let f := runner c_fails in
  let c := task "c" (failing "three") ["a"] in
  verbose f = Some {| bp_name := "v" |}
  ∧ BoolParam_Get {| bp_name := "v" |} (task_tf f c quiet_start) (heap quiet_start) = false
  ∧ output (snd (runTask f c quiet_start))
    = output quiet_start +:+ ("===== TASK  c" +:+ LF) +:+ "three"
                         +:+ ("----- FAIL: c (0.00s)" +:+ LF).
Proof.
  cbn zeta. split; [reflexivity|]. split; [reflexivity|].
  refine (proj2 (quiet_task_output (runner c_fails) (task "c" (failing "three") ["a"])
                   quiet_start {| bp_name := "v" |}
                   {| says := "three"; fails := true; skips := false; takes := 0;
                      cancels := false |}
                   "three" {| failed := true; skipped := false; duration := 0 |}
                   _ eq_refl eq_refl eq_refl eq_refl) eq_refl).
Defined.

(** The diamond in which the body of b cancels the context. *)
Definition b_cancels : gmap string (Task SampleCommand) :=
  graph (body "one") (cancelling "two") (body "three") (body "four").

Lemma cancellation_stops_traversal_witness :
  valid_tasks (tasks (runner b_cancels))
  ∧ size (tasks (runner b_cancels)) < 5
  ∧ ∃ code st' d,
      runTasks 5 (runner b_cancels) ["d"] quiet_start = Some (code, st')
      ∧ log st' = log quiet_start ++ d
      ∧ (∀ l1 nm result after l2,
           d = l1 ++ EvBody nm result after :: l2 →
           (∃ l1', l1 = l1' ++ [EvCheck nm None])
           ∧ (∃ l2', l2 = EvCheck nm (ctx_Err after) :: l2'))
      ∧ (∀ l1 nm err l2,
           d = l1 ++ EvCheck nm (Some err) :: l2 →
           l2 = []
           ∧ ¬ exec_true (executed st') nm
           ∧ code = CodeFailure
           ∧ ∃ out,
               output st'
               = out +:+ err +:+ TAB
                     +:+ fmt_seconds 3 (time_Now (world st') - time_Now (world quiet_start))
                     +:+ "s" +:+ LF)
      ∧ (∀ err,
           ctx_Err (world quiet_start) = Some err →
           ["d"] ≠ [] →
           ∃ nm, d = [EvCheck nm (Some err)]).
Proof.
  split; [apply graph_valid|]. split; [apply graph_size|].
  apply (cancellation_stops_traversal (runner b_cancels) 5 ["d"] quiet_start).
  - apply graph_valid.
  - apply graph_size.
Defined.




(** C7 as stated fails when an earlier flag value is refused: the value
    "maybe" of the boolean flag v ends the scan, so the later token, which
    is neither a task, nor a flag, nor a help token, nor the value of a
    flag before it, gets no unknown-argument line. *)
Lemma refused_flag_value_hides_unknown_argument :
  let f := runner diamond in
  let valuesByFlag := fst (bind_params f start) in
  let tok := "--does-not-exist" in
  tasks f !! tok = None
  ∧ valuesByFlag !! fst (split_eq tok) = None
  ∧ is_help tok = false
  ∧ split_eq "--v=maybe" = ("--v", Some "maybe")
  ∧ ∃ st', Run 5 f ["--v=maybe"; tok] start = Some (CodeInvalidArgs, st')
           ∧ output st' = ""
           ∧ output st' ≠ "unknown argument: " +:+ tok +:+ LF.
Proof.
  cbn zeta. split; [reflexivity|]. split; [reflexivity|]. split; [reflexivity|].
  split; [reflexivity|]. eexists. split; [vm_compute; reflexivity|].
  split; [reflexivity|]. discriminate.
Qed.


(** An unknown token after an accepted task name. *)
Lemma unknown_argument_aborts_witness :
  let f := runner diamond in
  let valuesByFlag := fst (bind_params f start) in
  let begin := MkScan scanHandler [] false (snd (bind_params f start)) in
  let scanned := scan_args f valuesByFlag ["d"] begin in
  fst scanned = None
  ∧ argHandler (snd scanned) = scanHandler
  ∧ tasks f !! "--does-not-exist" = None
  ∧ valuesByFlag !! fst (split_eq "--does-not-exist") = None
  ∧ is_help "--does-not-exist" = false
  ∧ Run 5 f (["d"] ++ "--does-not-exist" :: ["b"]) start
    = Some (CodeInvalidArgs,
            write_output ("unknown argument: --does-not-exist" +:+ LF)
              (scan_state (snd scanned)))
  ∧ log (scan_state (snd scanned)) = log start.
Proof.
  cbn zeta.
  pose proof (proj1 (unknown_argument_aborts 5 (runner diamond) start)
                ["d"] "--does-not-exist" ["b"]) as Habort.
  cbn zeta in Habort.
  split; [reflexivity|]. split; [reflexivity|]. split; [reflexivity|].
  split; [reflexivity|]. split; [reflexivity|].
  destruct Habort as (Hrun & Hlog & _); [reflexivity..|].
  split; [exact Hrun|exact Hlog].
Defined.

(** Registering into an empty registry, then a duplicate, then a task
    with an unknown dependency. *)
Lemma Register_errors_witness :
  let empty : Taskflow SampleValue SampleCommand :=
    {| DefaultTask := {| name := "" |}; tf_verbose := None;
       tf_params := None; tf_tasks := None |} in
  let a := task "a" (body "one") [] in
  let one := snd (Register a empty) in
  fst (Register a empty) = ({| name := "a" |}, None)
  ∧ tasks_of one !! "a" = Some a
  ∧ is_Some (snd (fst (Register a one)))
  ∧ tasks_of (snd (Register a one)) !! "a" = tasks_of one !! "a"
  ∧ is_Some (snd (fst (Register (task "b" (body "two") ["zz"]) one)))
  ∧ tasks_of (snd (Register (task "b" (body "two") ["zz"]) one)) !! "b" = None.
Proof.
  cbn zeta.
  set (empty := {| DefaultTask := {| name := "" |}; tf_verbose := None;
                   tf_params := None; tf_tasks := None |}
                : Taskflow SampleValue SampleCommand).
  set (a := task "a" (body "one") []).
  destruct (Register_errors a empty) as (_ & _ & Hstored).
  destruct (Hstored eq_refl) as (_ & Hat & _).
  destruct (Register_errors a (snd (Register a empty))) as (Hdup & Hsame & _).
  destruct (Register_errors (task "b" (body "two") ["zz"]) (snd (Register a empty)))
    as (Hdep & Hsame' & _).
  assert (Hdup_err : is_Some (snd (fst (Register a (snd (Register a empty)))))).
  { apply Hdup. right. left. rewrite Hat. by eexists. }
  assert (Hdep_err : is_Some (snd (fst (Register (task "b" (body "two") ["zz"])
                                          (snd (Register a empty)))))).
  { apply Hdep. right. right. exists (dep "zz"). split; [by left|reflexivity]. }
  split; [reflexivity|]. split; [exact Hat|]. split; [exact Hdup_err|].
  split; [exact (proj2 (Hsame Hdup_err) "a")|]. split; [exact Hdep_err|].
  rewrite (proj2 (Hsame' Hdep_err) "b"). reflexivity.
Defined.

(** The scenarios of the repository's tests: three tasks whose bodies
    count their runs, task-2 and task-3 depending on task-1. *)
Definition chain (first : option SampleCommand) : gmap string (Task SampleCommand) :=
  <["task-3" := task "task-3" (body "three") ["task-1"]]>
  (<["task-2" := task "task-2" (body "two") ["task-1"]]>
  (<["task-1" := task "task-1" first []]> ∅)).

Definition ran_after (ts : gmap string (Task SampleCommand))
    (invocations : list (list string)) : option (list Z * list string) :=
  let step acc requested :=
    '(codes, st) ← acc;
    '(code, st) ← runTasks 5 (runner ts) requested st;
    Some (codes ++ [code], st) in
  '(codes, st) ← fold_left step invocations (Some ([], quiet_start));
  Some (codes, ran (world st)).

Example Test_successful :
  ran_after (chain (body "one"))
    [["task-1"]; ["task-2"]; ["task-1"; "task-2"; "task-3"]]
  = Some ([0; 0; 0]%Z,
          ["task-1"] ++ ["task-1"; "task-2"] ++ ["task-1"; "task-2"; "task-3"]).
Proof. vm_compute. reflexivity. Qed.

Example Test_dependency_failure :
  ran_after (chain (failing "it still runs")) [["task-1"; "task-2"; "task-3"]]
  = Some ([1]%Z, ["task-1"]).
Proof. vm_compute. reflexivity. Qed.

End Instances.

(* ===================================================================== *)
(** * Further properties of the flow runner *)
(* ===================================================================== *)

Section RunProperties.

Context {W Val Cmd : Type} `{!Collaborators W Val Cmd}.

Implicit Types (f : flowRunner Val Cmd) (st : State (W := W) (Val := Val)).
Implicit Types (task : Task Cmd) (nm : string).

(** ** What a valid task map holds *)

Lemma valid_tasks_entries (m : gmap string (Task Cmd)) :
  valid_tasks m →
  ∀ nm task, m !! nm = Some task →
    Name task = nm ∧ nm ≠ ""
    ∧ ∀ dep, dep ∈ Dependencies task → is_Some (m !! name dep).
Proof.
  induction 1 as [|m t Hvalid IH Hname Hnew Hdeps]; intros nm task Hat.
  - by rewrite lookup_empty in Hat.
  - apply lookup_insert_Some in Hat as [[<- <-]|[Hne Hat]].
    + split; [done|]. split; [done|]. intros dep Hin.
      destruct (Hdeps dep Hin) as [t' Ht']. rewrite lookup_insert_ne; [by eexists|].
      intros Heq. congruence.
    + destruct (IH _ _ Hat) as (? & ? & Hd). split; [done|]. split; [done|].
      intros dep Hin. destruct (Hd dep Hin) as [t' Ht'].
      rewrite lookup_insert_ne; [by eexists|]. intros Heq. congruence.
Qed.

Lemma valid_tasks_acyclic f :
  valid_tasks (tasks f) → ∀ nm, ¬ tc (depends_on f) nm nm.
Proof.
  intros Hvalid nm Htc. destruct (valid_tasks_ranked _ Hvalid) as [rank Hrank].
  pose proof (depends_rank f rank Hrank _ _ Htc). lia.
Qed.

(** A task map that [Register] can build has no cycle: no task reaches
    itself through one or more dependency steps.  Every task is stored
    under its own, non-empty name, and every dependency it lists is
    stored too. *)
Theorem valid_graph_is_acyclic f :
  valid_tasks (tasks f) →
  (∀ nm, ¬ tc (depends_on f) nm nm)
  ∧ (∀ nm task, tasks f !! nm = Some task →
       Name task = nm ∧ nm ≠ ""
       ∧ ∀ dep, dep ∈ Dependencies task → is_Some (tasks f !! name dep)).
Proof.
  intros Hvalid. split; [by apply valid_tasks_acyclic|by apply valid_tasks_entries].
Qed.

(** ** [Run] after the scan *)

(** The two loops that open [Run]: binding the parameters and scanning
    the arguments. *)
Definition scan f (args : list string) st : option string * Scan :=
  scan_args f (fst (bind_params f st)) args
    (MkScan scanHandler [] false (snd (bind_params f st))).

(** The task list [Run] hands to [runTasks]: the requested names, or the
    default task when there are none and it is set. *)
Definition to_run f (sc : @Scan W Val) : list string :=
  if bool_decide (requested sc = []) && negb (bool_decide (name (defaultTask f) = ""))
  then requested sc ++ [name (defaultTask f)]
  else requested sc.

Lemma Run_scan (fuel : nat) f args st :
  Run fuel f args st
  = match scan f args st with
    | (Some _, sc) => Some (CodeInvalidArgs, scan_state sc)
    | (None, sc) =>
      if usageRequested sc then Some (CodePass, printUsage f (scan_state sc))
      else if bool_decide (to_run f sc = []) then
        Some (CodeInvalidArgs,
              printUsage f (write_output ("no task provided" +:+ LF) (scan_state sc)))
      else runTasks fuel f (to_run f sc) (scan_state sc)
    end.
Proof.
  unfold Run, scan, to_run. by destruct (bind_params f st) as [vbf st0].
Qed.

Lemma scan_frame f args st :
  log (scan_state (snd (scan f args st))) = log st
  ∧ world (scan_state (snd (scan f args st))) = world st.
Proof.
  unfold scan.
  pose proof (scan_args_frame f (fst (bind_params f st)) args
                (MkScan scanHandler [] false (snd (bind_params f st)))) as [Hl Hw].
  pose proof (bind_params_frame f st) as (Hbl & Hbw & _).
  cbn [scan_state] in Hl, Hw. by rewrite Hl, Hw.
Qed.

(** One call of the handler leaves the requested names as they are, or
    adds the argument, which then is a registered task name. *)
Lemma handle_arg_requested f vbf (sc : @Scan W Val) arg :
  requested (snd (handle_arg f vbf sc arg)) = requested sc
  ∨ (requested (snd (handle_arg f vbf sc arg)) = requested sc ++ [arg]
     ∧ is_Some (tasks f !! arg)).
Proof.
  unfold handle_arg. destruct (argHandler sc).
  2:{ destruct (Set_at _ _ _). by left. }
  case_bool_decide as Htask; [by right|]. left.
  repeat match goal with
         | |- context [Set_at ?v ?t ?s] => destruct (Set_at v t s)
         | |- context [match ?x with _ => _ end] => destruct x
         end; done.
Qed.

Lemma scan_args_requested f vbf args : ∀ (sc : @Scan W Val),
  ∃ k, requested (snd (scan_args f vbf args sc)) = requested sc ++ k
       ∧ k `sublist_of` args
       ∧ Forall (λ x, is_Some (tasks f !! x)) k.
Proof.
  induction args as [|arg args IH]; intros sc; cbn [scan_args].
  - exists []. by rewrite app_nil_r.
  - pose proof (handle_arg_requested f vbf sc arg) as Hreq.
    destruct (handle_arg f vbf sc arg) as [[err|] sc']; cbn [snd] in *.
    + destruct Hreq as [->|[-> Htask]].
      * exists []. rewrite app_nil_r. split; [done|]. split; [apply sublist_nil_l|done].
      * exists [arg]. split; [done|]. split; [|by constructor].
        by apply sublist_skip, sublist_nil_l.
    + destruct (IH sc') as (k & -> & Hsub & Hall).
      destruct Hreq as [->|[-> Htask]].
      * exists k. split; [done|]. split; [by apply sublist_cons|done].
      * exists (arg :: k). rewrite <- app_assoc. split; [done|].
        split; [by apply sublist_skip|by constructor].
Qed.

(** Once asked for, usage stays asked for. *)
Lemma handle_arg_usage f vbf (sc : @Scan W Val) arg :
  usageRequested sc = true → usageRequested (snd (handle_arg f vbf sc arg)) = true.
Proof.
  intros Hu. unfold handle_arg.
  repeat match goal with
         | |- context [Set_at ?v ?t ?s] => destruct (Set_at v t s)
         | |- context [match ?x with _ => _ end] => destruct x
         end; done.
Qed.

Lemma scan_args_usage f vbf args : ∀ (sc : @Scan W Val),
  usageRequested sc = true → usageRequested (snd (scan_args f vbf args sc)) = true.
Proof.
  induction args as [|arg args IH]; intros sc Hu; cbn [scan_args]; [done|].
  pose proof (handle_arg_usage f vbf sc arg Hu) as Hu'.
  destruct (handle_arg f vbf sc arg) as [[err|] sc']; cbn [snd] in *; [done|].
  by apply IH.
Qed.

(** ** [Run] as a whole *)

Lemma scan_requested f args st :
  requested (snd (scan f args st)) `sublist_of` args
  ∧ Forall (λ x, is_Some (tasks f !! x)) (requested (snd (scan f args st))).
Proof.
  unfold scan.
  destruct (scan_args_requested f (fst (bind_params f st)) args
              (MkScan scanHandler [] false (snd (bind_params f st))))
    as (k & -> & Hsub & Hall).
  done.
Qed.

(** On a valid task graph [Run] returns for every argument list, with
    status 0, 1 or 2.  The bodies it ran are pairwise distinct, and each
    belongs to a task reachable from a registered task name among the
    arguments or from the default task.  With status 2 no body ran. *)
Theorem Run_returns (fuel : nat) f (args : list string) st :
  valid_tasks (tasks f) →
  size (tasks f) < fuel →
  ∃ code st' d,
    Run fuel f args st = Some (code, st')
    ∧ (code = CodePass ∨ code = CodeFailure ∨ code = CodeInvalidArgs)
    ∧ log st' = log st ++ d
    ∧ NoDup (invoked d)
    ∧ (∀ nm, nm ∈ invoked d →
         ∃ x, rtc (depends_on f) x nm
              ∧ ((x ∈ args ∧ is_Some (tasks f !! x)) ∨ x = name (defaultTask f)))
    ∧ (code = CodeInvalidArgs → d = []).
Proof.
  intros Hvalid Hfuel. rewrite Run_scan.
  destruct (scan_frame f args st) as [Hlog _].
  destruct (scan_requested f args st) as [Hsub Hall].
  assert (Hnone : ∀ (code : Z) (st' : State),
            log st' = log st →
            (code = CodePass ∨ code = CodeFailure ∨ code = CodeInvalidArgs) →
            ∃ code' st'' d,
              Some (code, st') = Some (code', st'')
              ∧ (code' = CodePass ∨ code' = CodeFailure ∨ code' = CodeInvalidArgs)
              ∧ log st'' = log st ++ d
              ∧ NoDup (invoked d)
              ∧ (∀ nm, nm ∈ invoked d →
                   ∃ x, rtc (depends_on f) x nm
                        ∧ ((x ∈ args ∧ is_Some (tasks f !! x)) ∨ x = name (defaultTask f)))
              ∧ (code' = CodeInvalidArgs → d = [])).
  { intros code st' Hl Hcode. exists code, st', []. rewrite app_nil_r.
    split_and!; try done; [constructor|]. intros nm Hin. by apply elem_of_nil in Hin. }
  destruct (scan f args st) as [[err|] sc]; cbn [snd] in *.
  { apply Hnone; [done|by auto]. }
  destruct (usageRequested sc).
  { apply Hnone; [done|by auto]. }
  case_bool_decide as Hempty.
  { apply Hnone; [done|by auto]. }
  destruct (valid_tasks_ranked _ Hvalid) as [rank Hrank].
  destruct (runTasks_spec f rank Hrank fuel (to_run f sc) (scan_state sc) Hfuel)
    as (err & st1 & _ & Hrun & d & Hlog1 & Hreach & _ & _ & Hres).
  cbn [fst snd app] in *. rewrite Hrun.
  eexists _, _, d. split; [done|].
  split; [destruct err; by auto|].
  split; [cbn; by rewrite Hlog1, Hlog|].
  split.
  { destruct err as [err|].
    - by destruct (Bad_invoked f _ _ _ _ _ Hres) as (? & _).
    - apply Hres. }
  split; [|by destruct err].
  intros nm Hin. destruct (Hreach nm Hin) as (x & Hx & Hr). exists x. split; [done|].
  unfold to_run in Hx. destruct (_ && _).
  - apply elem_of_app in Hx as [Hx| ->%list_elem_of_singleton]; [|by right].
    left. split; [by eapply elem_of_sublist|]. by eapply (proj1 (Forall_forall _ _) Hall).
  - left. split; [by eapply elem_of_sublist|]. by eapply (proj1 (Forall_forall _ _) Hall).
Qed.

(** The names [Run] collects for [runTasks] are arguments, in the order of
    the arguments, and each is a registered task name; when it collects
    none, the list it runs is the default task alone, or empty when no
    default task is set. *)
Theorem requested_names_are_registered_arguments f (args : list string) st :
  let sc := snd (scan f args st) in
  requested sc `sublist_of` args
  ∧ Forall (λ x, is_Some (tasks f !! x)) (requested sc)
  ∧ (requested sc ≠ [] → to_run f sc = requested sc)
  ∧ (requested sc = [] →
       to_run f sc = if bool_decide (name (defaultTask f) = "") then []
                     else [name (defaultTask f)]).
Proof.
  cbn zeta. destruct (scan_requested f args st) as [Hsub Hall].
  split; [done|]. split; [done|]. unfold to_run. split.
  - intros Hne. by rewrite bool_decide_eq_false_2.
  - intros ->. rewrite bool_decide_eq_true_2 by done. by case_bool_decide.
Qed.

(** A help token that the scan reaches as such (it is neither a task name
    nor a flag, and no flag is waiting for its value) wins over everything
    else when the rest of the arguments is accepted: [Run] writes the
    usage text, returns 0 and runs no task body, whatever tasks were
    requested. *)
Theorem help_prints_usage (fuel : nat) f (pre post : list string) (tok : string) st :
  let before := scan f pre st in
  let after := scan f (pre ++ tok :: post) st in
  fst before = None →
  argHandler (snd before) = scanHandler →
  tasks f !! tok = None →
  fst (bind_params f st) !! fst (split_eq tok) = None →
  is_help tok = true →
  fst after = None →
  Run fuel f (pre ++ tok :: post) st
  = Some (CodePass, write_output (printUsage_text f) (scan_state (snd after)))
  ∧ log (scan_state (snd after)) = log st
  ∧ world (scan_state (snd after)) = world st.
Proof.
  cbn zeta. intros Hpre Hmain Htask Hflag Hhelp Hok.
  destruct (scan_frame f (pre ++ tok :: post) st) as [Hl Hw].
  split; [|done]. rewrite Run_scan.
  assert (Husage : usageRequested (snd (scan f (pre ++ tok :: post) st)) = true).
  { unfold scan in *. rewrite scan_args_app.
    destruct (scan_args f _ pre _) as [r sc]; cbn [fst snd] in *. subst r.
    cbn [scan_args]. unfold handle_arg at 1. rewrite Hmain.
    rewrite bool_decide_eq_false_2 by (rewrite Htask; by intros [? ?]).
    rewrite Hflag, Hhelp. by apply scan_args_usage. }
  destruct (scan f (pre ++ tok :: post) st) as [r sc]; cbn [fst snd] in *. subst r.
  by rewrite Husage.
Qed.

(** When no argument is a registered task name, [Run] never reaches a
    requested task: it stops at a rejected argument with status 2, or
    prints the usage asked for, or runs the default task alone, or, with
    no default task, writes "no task provided" and the usage and returns
    2. *)
Theorem without_task_names (fuel : nat) f (args : list string) st :
  (∀ arg, arg ∈ args → tasks f !! arg = None) →
  let sc := snd (scan f args st) in
  Run fuel f args st
  = match fst (scan f args st) with
    | Some _ => Some (CodeInvalidArgs, scan_state sc)
    | None =>
      if usageRequested sc then
        Some (CodePass, write_output (printUsage_text f) (scan_state sc))
      else if bool_decide (name (defaultTask f) = "") then
        Some (CodeInvalidArgs,
              write_output (printUsage_text f)
                (write_output ("no task provided" +:+ LF) (scan_state sc)))
      else runTasks fuel f [name (defaultTask f)] (scan_state sc)
    end.
Proof.
  intros Hnone. cbn zeta. rewrite Run_scan.
  destruct (scan_requested f args st) as [Hsub Hall].
  assert (Hreq : requested (snd (scan f args st)) = []).
  { destruct (requested (snd (scan f args st))) as [|x k]; [done|].
    apply Forall_cons in Hall as [[t Ht] _].
    rewrite (Hnone x) in Ht; [done|]. eapply elem_of_sublist; [|done]. by left. }
  destruct (scan f args st) as [[err|] sc]; cbn [fst snd] in *; [done|].
  destruct (usageRequested sc); [done|].
  assert (Hto : to_run f sc = if bool_decide (name (defaultTask f) = "") then []
                               else [name (defaultTask f)]).
  { unfold to_run. rewrite Hreq. rewrite (bool_decide_eq_true_2 ([] = [])) by done.
    by case_bool_decide. }
  rewrite Hto. by case_bool_decide.
Qed.

(** ** The parameter values of a run *)









(** The names a task's body can read: those the task declares and the
    verbose switch. *)
Definition visible f task (k : string) : Prop :=
  k ∈ rp_Name <$> Parameters task ∨ ∃ v, verbose f = Some v ∧ bp_name v = k.

Lemma declared_paramValues (g : string → option nat) (ps : list RegisteredParam) :
  ∀ (acc : gmap string (option nat)) k,
    fold_left (λ pv param, <[rp_Name param := g (rp_Name param)]> pv) ps acc !! k
    = if decide (k ∈ rp_Name <$> ps) then Some (g k) else acc !! k.
Proof.
  induction ps as [|p ps IH]; intros acc k; cbn [fold_left].
  - rewrite decide_False; [done|]. cbn. by intros ?%elem_of_nil.
  - rewrite IH, fmap_cons. destruct (decide (k ∈ rp_Name <$> ps)) as [Hin|Hnot].
    + rewrite decide_True; [done|by right].
    + destruct (decide (k = rp_Name p)) as [->|Hne].
      * rewrite decide_True by (by left). by rewrite lookup_insert_eq.
      * rewrite decide_False by (by intros [?|?]%elem_of_cons).
        by rewrite lookup_insert_ne.
Qed.

(** A task's body is given the values of the parameters the task declares
    and of the verbose switch, each as [f.paramValues] holds it (nil when
    it holds none), and of no other parameter. *)
Theorem body_sees_declared_parameters f task st (k : string) :
  (visible f task k → task_paramValues f task st !! k = Some (paramValues st !! k))
  ∧ (¬ visible f task k → task_paramValues f task st !! k = None).
Proof.
  unfold task_paramValues, visible.
  pose proof (declared_paramValues (λ n, paramValues st !! n) (Parameters task) ∅ k)
    as Hdecl.
  destruct (verbose f) as [v|].
  - destruct (decide (bp_name v = k)) as [<-|Hne].
    + rewrite lookup_insert_eq. split; [done|]. intros Hnot. destruct Hnot. right. by exists v.
    + rewrite lookup_insert_ne by done. rewrite Hdecl. split.
      * intros [Hin|(v' & [= <-] & ?)]; [|done]. by rewrite decide_True.
      * intros Hnot. rewrite decide_False; [apply lookup_empty|]. intros Hin. apply Hnot. by left.
  - rewrite Hdecl. split.
    + intros [Hin|(v' & [=] & ?)]. by rewrite decide_True.
    + intros Hnot. rewrite decide_False; [apply lookup_empty|]. intros Hin. apply Hnot. by left.
Qed.

(** ** More on running one task *)


(** ** More on the traversal *)

Lemma range_until_error_app
    (body : string → @State W Val → option (option string * @State W Val)) xs ys st :
  range_until_error body (xs ++ ys) st
  = match range_until_error body xs st with
    | Some (None, st') => range_until_error body ys st'
    | other => other
    end.
Proof.
  revert st. induction xs as [|x xs IH]; intros st; cbn [app range_until_error]; [done|].
  destruct (body x st) as [[[err|] st']|]; [done| |done]. apply IH.
Qed.

(** A name that is not registered is run like a task without a body and
    without dependencies: with the context alive, [runTasks] evaluates the
    two checks, runs nothing, marks the name executed, writes the "ok"
    line and returns 0. *)
Theorem unregistered_name_passes (fuel : nat) f nm st :
  tasks f !! nm = None →
  ctx_Err (world st) = None →
  runTasks (S fuel) f [nm] st
  = Some (CodePass,
          write_output ("ok" +:+ TAB +:+ fmt_seconds 3 0 +:+ "s" +:+ LF)
            (with_executed {[ nm := true ]}
               (log_event (EvCheck nm None) (log_event (EvCheck nm None) st)))).
Proof.
  intros Hat Hctx. unfold runTasks. cbn [range_until_error run].
  unfold is_executed, task_at. cbn [executed with_executed].
  rewrite lookup_empty, Hat. cbn [default zero_Task Dependencies fmap list_fmap
    range_until_error world with_executed log_event].
  rewrite Hctx. unfold runTask. cbn [Command zero_Task world log_event with_executed].
  rewrite Hctx. cbn [negb world with_executed log_event executed].
  rewrite Z.sub_diag. by rewrite insert_empty.
Qed.

Section Memo.

Variable f : flowRunner Val Cmd.

(** Asking again for a task that was asked for earlier in the list changes
    nothing: the state, the output and the status are those of the list
    without the repetition. *)
Theorem repeated_request_is_ignored (fuel : nat) (xs ys : list string) (x : string) st :
  valid_tasks (tasks f) →
  size (tasks f) < fuel →
  x ∈ xs →
  runTasks fuel f (xs ++ x :: ys) st = runTasks fuel f (xs ++ ys) st.
Proof.
  intros Hvalid Hfuel Hx. destruct (valid_tasks_ranked _ Hvalid) as [rank Hrank].
  unfold runTasks.
  assert (Hloop : range_until_error (run fuel f) (xs ++ x :: ys) (with_executed ∅ st)
                  = range_until_error (run fuel f) (xs ++ ys) (with_executed ∅ st));
    [|by rewrite Hloop].
  rewrite !range_until_error_app.
  destruct (loop_spec f (run fuel f) xs
              ltac:(intros y _; apply (run_spec f rank Hrank);
                    by apply (fits_enough f rank Hrank))
              (with_executed ∅ st) (log st) (world st) []
              ltac:(by rewrite app_nil_r) (Good_start f _))
    as ([[err|] st1] & -> & Hpost); [done|].
  destruct Hpost as (_ & _ & _ & _ & _ & _ & Hroots & _). cbn [fst snd] in Hroots.
  specialize (Hroots x Hx). cbn [range_until_error].
  destruct fuel as [|fuel]; [lia|]. cbn [run].
  unfold exec_true in Hroots. unfold is_executed. by rewrite Hroots.
Qed.

Lemma passes_bodies w0 l w :
  passes f w0 l w →
  ∀ nm result after, EvBody nm result after ∈ l → is_Some (Command (task_at f nm)).
Proof.
  induction 1 as [|l w nm Hp IH Hctx Hcmd
                  |l w nm command rn h written result after Hp IH Hctx Hcmd Hrn Hrun Hres Hafter];
    intros n r a Hin.
  - by apply elem_of_nil in Hin.
  - apply elem_of_app in Hin as [Hin|Hin]; [by eapply IH|].
    repeat (apply elem_of_cons in Hin as [Hin|Hin]); simplify_eq.
    by apply elem_of_nil in Hin.
  - apply elem_of_app in Hin as [Hin|Hin]; [by eapply IH|].
    repeat (apply elem_of_cons in Hin as [Hin|Hin]); simplify_eq.
    + by rewrite Hcmd.
    + by apply elem_of_nil in Hin.
Qed.

(** Only registered tasks that have a body are ever run: a name that is
    not registered, or a task without a body, leaves no body in the log. *)
Theorem only_tasks_with_a_body_run (fuel : nat) (requested : list string) st :
  valid_tasks (tasks f) →
  size (tasks f) < fuel →
  ∃ code st' d,
    runTasks fuel f requested st = Some (code, st')
    ∧ log st' = log st ++ d
    ∧ ∀ nm result after, EvBody nm result after ∈ d →
        ∃ task command, tasks f !! nm = Some task ∧ Command task = Some command.
Proof.
  intros Hvalid Hfuel. destruct (valid_tasks_ranked _ Hvalid) as [rank Hrank].
  destruct (runTasks_spec f rank Hrank fuel requested st Hfuel)
    as (err & st1 & _ & Hrun & d & Hlog & _ & _ & _ & Hres).
  cbn [fst snd app] in *.
  eexists _, _, d. split; [exact Hrun|]. split; [done|].
  assert (Hbody : ∀ nm result after, EvBody nm result after ∈ d →
            is_Some (Command (task_at f nm))).
  { destruct err as [err|].
    - destruct Hres as (l0 & w1 & bad & Hg & _ & _ & Hend).
      intros nm result after Hin.
      destruct Hend as [(-> & _)|(command & rn & h & written & result' & _ & Hcmd & _ & _ & -> & _)];
        apply elem_of_app in Hin as [Hin|Hin];
        try (by eapply passes_bodies; [eapply good_passes, Hg|]);
        repeat (apply elem_of_cons in Hin as [Hin|Hin]); simplify_eq;
        try (by apply elem_of_nil in Hin).
      by rewrite Hcmd.
    - destruct Hres as (Hg & _). intros nm result after Hin.
      eapply passes_bodies; [eapply good_passes, Hg|done]. }
  intros nm result after Hin. destruct (Hbody _ _ _ Hin) as [command Hcmd].
  unfold task_at in Hcmd. destruct (tasks f !! nm) as [task|]; [|done].
  by exists task, command.
Qed.

(** *** A run with the verbose switch off *)

Variable v : BoolParam.
Hypothesis Hverbose : verbose f = Some v.

(** The verbose switch reads false in state [st], for every task. *)
Definition quiet st : Prop :=
  ∀ task, BoolParam_Get v (task_tf f task st) (heap st) = false.

Lemma quiet_ext st st' :
  heap st' = heap st → paramValues st' = paramValues st → quiet st → quiet st'.
Proof.
  intros Hh Hp Hq task. specialize (Hq task).
  unfold task_tf, task_paramValues in *. by rewrite Hh, Hp.
Qed.

(** What a call started in a quiet state leaves: the values as they were,
    and the output as it was, or, with an error, possibly followed by the
    text of one failed task. *)
Definition quiet_post st (res : option string * @State W Val) : Prop :=
  heap (snd res) = heap st
  ∧ paramValues (snd res) = paramValues st
  ∧ match fst res with
    | None => output (snd res) = output st
    | Some _ =>
      output (snd res) = output st
      ∨ ∃ task written result,
          failed result = true
          ∧ output (snd res) = output st +:+ task_text task written result
    end.

Lemma quiet_loop (body : string → @State W Val → option (option string * @State W Val)) xs :
  (∀ x st res, quiet st → body x st = Some res → quiet_post st res) →
  ∀ st res, quiet st → range_until_error body xs st = Some res → quiet_post st res.
Proof.
  intros Hbody. induction xs as [|x xs IH]; intros st res Hq; cbn [range_until_error].
  - intros [= <-]. by split_and!.
  - destruct (body x st) as [[[err|] st1]|] eqn:Hx; [| |done].
    + intros [= <-]. by eapply Hbody.
    + intros Hrest. destruct (Hbody _ _ _ Hq Hx) as (Hh & Hp & Ho). cbn [fst snd] in *.
      destruct (IH st1 res (quiet_ext _ _ Hh Hp Hq) Hrest) as (Hh' & Hp' & Ho').
      split; [congruence|]. split; [congruence|]. by rewrite <- Ho.
Qed.

Lemma quiet_run fuel : ∀ nm st res,
  quiet st → run fuel f nm st = Some res → quiet_post st res.
Proof.
  induction fuel as [|fuel IH]; intros nm st res Hq; cbn [run]; [done|].
  destruct (is_executed st nm); [intros [= <-]; by split_and!|].
  destruct (range_until_error (run fuel f) (name <$> Dependencies (task_at f nm)) st)
    as [[[err|] st1]|] eqn:Hloop; [| |done].
  { intros [= <-]. by eapply (quiet_loop (run fuel f)). }
  destruct (quiet_loop (run fuel f) _ IH _ _ Hq Hloop) as (Hh & Hp & Ho).
  cbn [fst snd] in *.
  destruct (ctx_Err (world st1)) as [err|] eqn:Hctx1; cbn [log_event world].
  { intros [= <-]. split_and!; try done. by left. }
  set (st1' := log_event (EvCheck nm None) st1).
  assert (Hq1 : quiet st1') by (by apply (quiet_ext st)).
  destruct (Command (task_at f nm)) as [command|] eqn:Hcmd.
  2:{ unfold runTask. rewrite Hcmd. subst st1'. cbn [world log_event]. rewrite Hctx1.
    cbn [negb]. intros [= <-]. by split_and!. }
  destruct (Runner_Run (task_runner f (task_at f nm) st1') command (heap st1')
              (world st1')) as [[written result] after] eqn:Hrun.
  destruct (runTask_body f (task_at f nm) st1' command written result after Hcmd Hrun)
    as (Hpassed & _ & _ & _ & Hh2 & Hp2 & Hout2).
  rewrite Hverbose, (Hq1 (task_at f nm)) in Hout2. cbn [negb andb] in Hout2.
  destruct (runTask f (task_at f nm) st1') as [passed st2]. cbn [fst snd] in *.
  subst passed.
  change (output st1') with (output st1) in Hout2.
  change (heap st1') with (heap st1) in Hh2.
  change (paramValues st1') with (paramValues st1) in Hp2.
  assert (Hcases : output st2 = output st
                   ∨ ∃ task written result,
                       failed result = true
                       ∧ output st2 = output st +:+ task_text task written result).
  { destruct (failed result) eqn:Hf; cbn in Hout2.
    - right. exists (task_at f nm), written, result. split; [done|]. by rewrite Hout2, Ho.
    - left. by rewrite Hout2. }
  assert (Hfin : ∀ r st3,
            heap st3 = heap st2 → paramValues st3 = paramValues st2 →
            output st3 = output st2 → (r = None → failed result = false) →
            quiet_post st (r, st3)).
  { intros r st3 H1 H2 H3 Hr. split_and!; cbn [fst snd]; [congruence|congruence|].
    rewrite H3. destruct r; [done|]. rewrite Hout2, (Hr eq_refl). cbn. congruence. }
  destruct (ctx_Err (world st2)) as [err|].
  { intros [= <-]. by apply Hfin. }
  destruct (failed result) eqn:Hf; cbn [negb]; intros [= <-]; by apply Hfin.
Qed.

(** With the verbose switch off, on a valid task graph: a run in which all
    goes well writes nothing but the "ok" line; a run that ends with an
    error writes the error line, preceded by the start marker, the output
    and the end marker of one failed task at most.  The output of tasks
    that passed or skipped, also of those the failed task depends on, is
    never written. *)
Theorem quiet_run_output (fuel : nat) (requested : list string) st :
  valid_tasks (tasks f) →
  size (tasks f) < fuel →
  quiet st →
  ∃ code st',
    runTasks fuel f requested st = Some (code, st')
    ∧ let since := (time_Now (world st') - time_Now (world st))%Z in
      (code = CodePass →
         output st' = output st +:+ "ok" +:+ TAB +:+ fmt_seconds 3 since +:+ "s" +:+ LF)
      ∧ (code = CodeFailure →
           ∃ err,
             output st'
             = output st +:+ err +:+ TAB +:+ fmt_seconds 3 since +:+ "s" +:+ LF
             ∨ ∃ task written result,
                 failed result = true
                 ∧ output st'
                   = output st +:+ task_text task written result
                               +:+ err +:+ TAB +:+ fmt_seconds 3 since +:+ "s" +:+ LF).
Proof.
  intros Hvalid Hfuel Hq. destruct (valid_tasks_ranked _ Hvalid) as [rank Hrank].
  destruct (runTasks_spec f rank Hrank fuel requested st Hfuel)
    as (err & st1 & Hloop & Hrun & _).
  destruct (quiet_loop (run fuel f) requested (quiet_run fuel) (with_executed ∅ st)
              _ (quiet_ext st _ eq_refl eq_refl Hq) Hloop) as (_ & _ & Hout).
  cbn [fst snd output with_executed] in Hout.
  eexists _, _. split; [exact Hrun|]. cbn zeta. cbn [world write_output output].
  destruct err as [err|]; cbn [report].
  - split; [done|]. intros _. exists err.
    destruct Hout as [->|(task & written & result & Hf & ->)]; [by left|].
    right. exists task, written, result. split; [done|]. by rewrite append_assoc.
  - split; [|done]. intros _. by rewrite Hout.
Qed.

End Memo.

End RunProperties.

(* ===================================================================== *)
(** * The rest of taskflow.go: parameters, the verbose switch, [Run] *)
(* ===================================================================== *)

(** A call that returns or panics.  What a panicking call leaves behind is
    not followed. *)
Inductive outcome (A : Type) :=
| returns (a : A)
| panics (msg : string).
Arguments returns {A} _.
Arguments panics {A} _.

Section Registry.

Context {W Val Cmd : Type} `{!Collaborators W Val Cmd}.

(** The value boxes of the primitive parameters; their declarations are
    not among the sources at hand. *)
Variable boolValue : bool → Val.
Variable intValue : Z → Val.
Variable stringValue : string → Val.

(** [func New() *Taskflow] *)
Definition New : Taskflow Val Cmd :=
  {| DefaultTask := zero_RegisteredTask; tf_verbose := None;
     tf_params := None; tf_tasks := None |}.

(** The parameter map as a map: a nil map holds nothing. *)
Definition params_of (f : Taskflow Val Cmd) : gmap string (parameter Val) :=
  default ∅ (tf_params f).

Definition set_params (m : gmap string (parameter Val)) (f : Taskflow Val Cmd)
    : Taskflow Val Cmd :=
  {| DefaultTask := DefaultTask f; tf_verbose := tf_verbose f;
     tf_params := Some m; tf_tasks := tf_tasks f |}.

Definition set_verbose (v : BoolParam) (f : Taskflow Val Cmd) : Taskflow Val Cmd :=
  {| DefaultTask := DefaultTask f; tf_verbose := Some v;
     tf_params := tf_params f; tf_tasks := tf_tasks f |}.

(** [func (f *Taskflow) registerParam(newValue func() Value, info ParameterInfo)] *)
Definition registerParam (newValue : Val) (info : ParameterInfo) (f : Taskflow Val Cmd)
    : outcome (Taskflow Val Cmd) :=
  if bool_decide (pi_Name info = "") then panics "parameter name cannot be empty"
  else if bool_decide (is_Some (params_of f !! pi_Name info)) then
    panics (pi_Name info +:+ " parameter was already registered")
  else
    returns (set_params (<[pi_Name info := MkParameter info newValue]> (params_of f)) f).

(** [func (f *Taskflow) RegisterValueParam(newValue func() Value, info ParameterInfo) ValueParam] *)
Definition RegisterValueParam (newValue : Val) (info : ParameterInfo) (f : Taskflow Val Cmd)
    : outcome (RegisteredParam * Taskflow Val Cmd) :=
  match registerParam newValue info f with
  | panics msg => panics msg
  | returns f => returns ({| rp_Name := pi_Name info |}, f)
  end.

(** [func (f *Taskflow) RegisterBoolParam(defaultValue bool, info ParameterInfo) BoolParam] *)
Definition RegisterBoolParam (defaultValue : bool) (info : ParameterInfo)
    (f : Taskflow Val Cmd) : outcome (BoolParam * Taskflow Val Cmd) :=
  match registerParam (boolValue defaultValue) info f with
  | panics msg => panics msg
  | returns f => returns ({| bp_name := pi_Name info |}, f)
  end.

(** [func (f *Taskflow) RegisterIntParam(defaultValue int, info ParameterInfo) IntParam] *)
Definition RegisterIntParam (defaultValue : Z) (info : ParameterInfo)
    (f : Taskflow Val Cmd) : outcome (RegisteredParam * Taskflow Val Cmd) :=
  match registerParam (intValue defaultValue) info f with
  | panics msg => panics msg
  | returns f => returns ({| rp_Name := pi_Name info |}, f)
  end.

(** [func (f *Taskflow) RegisterStringParam(defaultValue string, info ParameterInfo) StringParam] *)
Definition RegisterStringParam (defaultValue : string) (info : ParameterInfo)
    (f : Taskflow Val Cmd) : outcome (RegisteredParam * Taskflow Val Cmd) :=
  match registerParam (stringValue defaultValue) info f with
  | panics msg => panics msg
  | returns f => returns ({| rp_Name := pi_Name info |}, f)
  end.

Definition verbose_info : ParameterInfo :=
  {| pi_Name := "v";
     Usage := "Verbose output: log all tasks as they are run. Also print all text from Log and Logf calls even if the task succeeds." |}.

(** [func (f *Taskflow) VerboseParam() BoolParam] *)
Definition VerboseParam (f : Taskflow Val Cmd) : outcome (BoolParam * Taskflow Val Cmd) :=
  match tf_verbose f with
  | None =>
    match RegisterBoolParam false verbose_info f with
    | panics msg => panics msg
    | returns (param, f) => returns (param, set_verbose param f)
    end
  | Some v => returns (v, f)
  end.

(** [func (f *Taskflow) MustRegister(task Task) RegisteredTask] *)
Definition MustRegister (task : Task Cmd) (f : Taskflow Val Cmd)
    : outcome (RegisteredTask * Taskflow Val Cmd) :=
  match Register task f with
  | ((_, Some err), _) => panics err
  | ((dep, None), f) => returns (dep, f)
  end.

(** The [flowRunner] that [Taskflow.Run] builds. *)
Definition flow_of (f : Taskflow Val Cmd) : flowRunner Val Cmd :=
  {| params := params_of f; tasks := tasks_of f;
     verbose := tf_verbose f; defaultTask := DefaultTask f |}.

(** [func (f *Taskflow) Run(ctx context.Context, args ...string) int].
    The destination, [f.Output] or [DefaultOutput], is the output of the
    state. *)
Definition Taskflow_Run (fuel : nat) (f : Taskflow Val Cmd) (args : list string)
    (st : State) : outcome (option (Z * State) * Taskflow Val Cmd) :=
  match VerboseParam f with
  | panics msg => panics msg
  | returns (_, f) => returns (Run fuel (flow_of f) args st, f)
  end.

(** Registering one task after the other, errors ignored. *)
Definition Register_all (ts : list (Task Cmd)) (f : Taskflow Val Cmd) : Taskflow Val Cmd :=
  fold_left (λ f task, snd (Register task f)) ts f.

(** [registerParam] panics exactly when the name is empty or taken.  When
    it returns, the parameter is stored under its name, the other
    parameters are as before (a nil map counting as empty), and the tasks,
    the verbose handle and the default task are untouched. *)
Theorem registerParam_panics (newValue : Val) (info : ParameterInfo)
    (f : Taskflow Val Cmd) :
  match registerParam newValue info f with
  | panics _ => pi_Name info = "" ∨ is_Some (params_of f !! pi_Name info)
  | returns f' =>
    pi_Name info ≠ ""
    ∧ params_of f !! pi_Name info = None
    ∧ params_of f' !! pi_Name info = Some (MkParameter info newValue)
    ∧ (∀ nm, nm ≠ pi_Name info → params_of f' !! nm = params_of f !! nm)
    ∧ tf_tasks f' = tf_tasks f
    ∧ tf_verbose f' = tf_verbose f
    ∧ DefaultTask f' = DefaultTask f
  end.
Proof.
  unfold registerParam. case_bool_decide as Hname; [by left|].
  case_bool_decide as Htaken; [by right|].
  split; [done|]. split; [by apply eq_None_not_Some|].
  unfold params_of at 1 3; cbn.
  split; [apply lookup_insert_eq|]. split; [|done].
  intros nm Hne. by rewrite lookup_insert_ne.
Qed.

(** [VerboseParam] registers the parameter "v" at most once.  It panics
    only when no handle is cached and a parameter "v" is already there.
    When it returns, the handle is cached, a second call returns the same
    handle and changes nothing, the tasks are untouched; a first call adds
    exactly the boolean parameter "v" with default false, and a call on a
    cached handle changes nothing at all. *)
Theorem VerboseParam_once (f : Taskflow Val Cmd) :
  match VerboseParam f with
  | panics _ => tf_verbose f = None ∧ is_Some (params_of f !! "v")
  | returns (v, f') =>
    VerboseParam f' = returns (v, f')
    ∧ tf_verbose f' = Some v
    ∧ tf_tasks f' = tf_tasks f
    ∧ (is_Some (tf_verbose f) → f' = f)
    ∧ (tf_verbose f = None →
         v = {| bp_name := "v" |}
         ∧ params_of f !! "v" = None
         ∧ params_of f' = <["v" := MkParameter verbose_info (boolValue false)]> (params_of f))
  end.
Proof.
  unfold VerboseParam at 1. destruct (tf_verbose f) as [v|] eqn:Hv.
  { unfold VerboseParam. rewrite Hv. by split_and!. }
  unfold RegisterBoolParam, registerParam. cbn [pi_Name verbose_info].
  rewrite bool_decide_eq_false_2 by done.
  case_bool_decide as Htaken; [done|].
  unfold VerboseParam; cbn. split_and!; try done.
  intros _. split_and!; [done|by apply eq_None_not_Some|done].
Qed.

(** ** Registries built by [Register] *)

Lemma Register_keeps_valid task (f : Taskflow Val Cmd) :
  valid_tasks (tasks_of f) →
  valid_tasks (tasks_of (snd (Register task f)))
  ∧ (size (tasks_of (snd (Register task f))) ≤ S (size (tasks_of f)))%nat.
Proof.
  intros Hvalid. unfold Register.
  case_bool_decide as Hname; [cbn; split; [done|lia]|].
  destruct (isRegistered_spec (Name task) f) as [Hreg Hsame].
  destruct (isRegistered (Name task) f) as [registered f1]; cbn [fst snd] in Hreg, Hsame.
  subst registered. case_bool_decide as Htaken; [cbn; rewrite Hsame; split; [done|lia]|].
  destruct (check_dependencies_spec (Dependencies task) f1) as [Hsame2 Hdeps].
  destruct (check_dependencies (Dependencies task) f1) as [[err|] f2];
    cbn [fst snd] in *; [rewrite Hsame2, Hsame; split; [done|lia]|].
  unfold tasks_of at 1 3; cbn. rewrite Hsame2, Hsame.
  assert (Hnew : tasks_of f !! Name task = None) by (by apply eq_None_not_Some).
  split.
  - apply valid_register; [done|done|done|]. rewrite <- Hsame. by apply Hdeps.
  - by rewrite map_size_insert_None.
Qed.

Lemma Register_all_valid ts : ∀ (f : Taskflow Val Cmd),
  valid_tasks (tasks_of f) →
  valid_tasks (tasks_of (Register_all ts f))
  ∧ (size (tasks_of (Register_all ts f)) ≤ size (tasks_of f) + length ts)%nat.
Proof.
  induction ts as [|task ts IH]; intros f Hvalid; cbn [Register_all fold_left length].
  - split; [done|lia].
  - destruct (Register_keeps_valid task f Hvalid) as [Hv Hs].
    destruct (IH _ Hv) as [Hv' Hs']. unfold Register_all in *. split; [done|lia].
Qed.

(** Whatever tasks are handed to [Register], in whatever order and
    whether each call succeeds or not, the registry that grows from [New]
    is a valid task graph without a cycle and holds at most as many tasks
    as there were calls. *)
Theorem registry_from_New_is_acyclic (ts : list (Task Cmd)) :
  let f := Register_all ts New in
  valid_tasks (tasks_of f)
  ∧ (∀ nm, ¬ tc (depends_on (flow_of f)) nm nm)
  ∧ (size (tasks_of f) ≤ length ts)%nat.
Proof.
  cbn zeta. destruct (Register_all_valid ts New) as [Hvalid Hsize]; [constructor|].
  split; [done|]. split; [by apply valid_tasks_acyclic|].
  unfold tasks_of at 2 in Hsize. cbn in Hsize. rewrite map_size_empty in Hsize. lia.
Qed.

(** [Taskflow.Run] on a registry with a valid task graph panics only when
    the verbose switch cannot be registered (no handle is cached and a
    parameter "v" is already there).  Otherwise it returns for every
    argument list, with status 0, 1 or 2, and leaves a registry whose
    verbose handle is cached and whose tasks are as before. *)
Theorem Taskflow_Run_returns (fuel : nat) (f : Taskflow Val Cmd) (args : list string)
    (st : State) :
  valid_tasks (tasks_of f) →
  size (tasks_of f) < fuel →
  match Taskflow_Run fuel f args st with
  | panics _ => tf_verbose f = None ∧ is_Some (params_of f !! "v")
  | returns (res, f') =>
    (∃ code st',
       res = Some (code, st')
       ∧ (code = CodePass ∨ code = CodeFailure ∨ code = CodeInvalidArgs))
    ∧ is_Some (tf_verbose f')
    ∧ tf_tasks f' = tf_tasks f
  end.
Proof.
  intros Hvalid Hfuel.
  assert (Hrun : ∀ f' : Taskflow Val Cmd, tf_tasks f' = tf_tasks f →
            ∃ code st',
              Run fuel (flow_of f') args st = Some (code, st')
              ∧ (code = CodePass ∨ code = CodeFailure ∨ code = CodeInvalidArgs)).
  { intros f' Htasks.
    assert (Hsame : tasks (flow_of f') = tasks_of f)
      by (unfold flow_of, tasks_of; cbn; by rewrite Htasks).
    rewrite Run_scan. destruct (scan (flow_of f') args st) as [[err|] sc]; [by eauto 6|].
    destruct (usageRequested sc); [by eauto 6|].
    case_bool_decide; [by eauto 6|].
    rewrite <- Hsame in Hvalid, Hfuel.
    destruct (valid_tasks_ranked _ Hvalid) as [rank Hrank].
    destruct (runTasks_spec (flow_of f') rank Hrank fuel (to_run (flow_of f') sc)
                (scan_state sc) Hfuel) as (err & st1 & _ & -> & _).
    eexists _, _. split; [done|]. destruct err; auto. }
  unfold Taskflow_Run, VerboseParam. destruct (tf_verbose f) as [v|] eqn:Hv.
  { split; [by apply Hrun|]. by rewrite Hv. }
  unfold RegisterBoolParam, registerParam. cbn [pi_Name verbose_info].
  rewrite bool_decide_eq_false_2 by done.
  case_bool_decide as Htaken; [done|].
  split; [by apply Hrun|]. done.
Qed.

End Registry.

(* ===================================================================== *)
(** * The further properties on the sample instance *)
(* ===================================================================== *)

Section MoreInstances.

Import Sample.

Lemma valid_graph_is_acyclic_witness :
  valid_tasks (tasks (runner diamond))
  ∧ (∀ nm, ¬ tc (depends_on (runner diamond)) nm nm)
  ∧ (∀ nm t, tasks (runner diamond) !! nm = Some t →
       Name t = nm ∧ nm ≠ ""
       ∧ ∀ dep, dep ∈ Dependencies t → is_Some (tasks (runner diamond) !! name dep)).
Proof.
  split; [apply graph_valid|].
  apply (valid_graph_is_acyclic (runner diamond)). apply graph_valid.
Defined.

Lemma Run_returns_witness :
  valid_tasks (tasks (runner diamond))
  ∧ size (tasks (runner diamond)) < 5
  ∧ ∃ code st' d,
      Run 5 (runner diamond) ["-v"; "d"; "b"] start = Some (code, st')
      ∧ (code = CodePass ∨ code = CodeFailure ∨ code = CodeInvalidArgs)
      ∧ log st' = log start ++ d
      ∧ NoDup (invoked d)
      ∧ (∀ nm, nm ∈ invoked d →
           ∃ x, rtc (depends_on (runner diamond)) x nm
                ∧ ((x ∈ ["-v"; "d"; "b"] ∧ is_Some (tasks (runner diamond) !! x))
                   ∨ x = name (defaultTask (runner diamond))))
      ∧ (code = CodeInvalidArgs → d = []).
Proof.
  split; [apply graph_valid|]. split; [apply graph_size|].
  apply (Run_returns 5 (runner diamond) ["-v"; "d"; "b"] start).
  - apply graph_valid.
  - apply graph_size.
Defined.

Lemma help_prints_usage_witness :
  let f := runner diamond in
  fst (scan f ["d"] start) = None
  ∧ argHandler (snd (scan f ["d"] start)) = scanHandler
  ∧ tasks f !! "help" = None
  ∧ fst (bind_params f start) !! fst (split_eq "help") = None
  ∧ is_help "help" = true
  ∧ fst (scan f (["d"] ++ "help" :: ["b"]) start) = None
  ∧ Run 5 f (["d"] ++ "help" :: ["b"]) start
    = Some (CodePass,
            write_output (printUsage_text f)
              (scan_state (snd (scan f (["d"] ++ "help" :: ["b"]) start))))
  ∧ log (scan_state (snd (scan f (["d"] ++ "help" :: ["b"]) start))) = log start.
Proof.
  cbn zeta.
  pose proof (help_prints_usage 5 (runner diamond) ["d"] ["b"] "help" start) as Hhelp.
  cbn zeta in Hhelp.
  do 6 (split; [reflexivity|]).
  destruct Hhelp as (Hrun & Hlog & _); [reflexivity..|].
  split; [exact Hrun|exact Hlog].
Defined.

Lemma without_task_names_witness :
  let f := runner diamond in
  (∀ arg, arg ∈ ["-v"] → tasks f !! arg = None)
  ∧ Run 5 f ["-v"] start
    = Some (CodeInvalidArgs,
            write_output (printUsage_text f)
              (write_output ("no task provided" +:+ LF)
                 (scan_state (snd (scan f ["-v"] start))))).
Proof.
  cbn zeta.
  assert (Hnone : ∀ arg, arg ∈ ["-v"] → tasks (runner diamond) !! arg = None).
  { intros arg ->%list_elem_of_singleton. reflexivity. }
  split; [exact Hnone|].
  exact (without_task_names 5 (runner diamond) ["-v"] start Hnone).
Defined.



Lemma unregistered_name_passes_witness :
  tasks (runner diamond) !! "zz" = None
  ∧ ctx_Err (world start) = None
  ∧ runTasks 1 (runner diamond) ["zz"] start
    = Some (CodePass,
            write_output ("ok" +:+ TAB +:+ fmt_seconds 3 0 +:+ "s" +:+ LF)
              (with_executed {[ "zz" := true ]}
                 (log_event (EvCheck "zz" None) (log_event (EvCheck "zz" None) start)))).
Proof.
  split; [reflexivity|]. split; [reflexivity|].
  apply (unregistered_name_passes 0 (runner diamond) "zz" start); reflexivity.
Defined.

Lemma repeated_request_is_ignored_witness :
  valid_tasks (tasks (runner diamond))
  ∧ size (tasks (runner diamond)) < 5
  ∧ "d" ∈ ["c"; "d"]
  ∧ runTasks 5 (runner diamond) (["c"; "d"] ++ "d" :: ["b"]) quiet_start
    = runTasks 5 (runner diamond) (["c"; "d"] ++ ["b"]) quiet_start.
Proof.
  assert (Hin : "d" ∈ ["c"; "d"]) by (right; left).
  split; [apply graph_valid|]. split; [apply graph_size|]. split; [exact Hin|].
  exact (repeated_request_is_ignored (runner diamond) 5 ["c"; "d"] ["b"] "d" quiet_start
           (graph_valid _ _ _ _) (graph_size _ _ _ _) Hin).
Defined.

Lemma only_tasks_with_a_body_run_witness :
  let f := runner (graph None (body "two") (body "three") None) in
  valid_tasks (tasks f)
  ∧ size (tasks f) < 5
  ∧ ∃ code st' d,
      runTasks 5 f ["d"; "zz"] quiet_start = Some (code, st')
      ∧ log st' = log quiet_start ++ d
      ∧ ∀ nm result after, EvBody nm result after ∈ d →
          ∃ t command, tasks f !! nm = Some t ∧ Command t = Some command.
Proof.
  cbn zeta. split; [apply graph_valid|]. split; [apply graph_size|].
  apply (only_tasks_with_a_body_run
           (runner (graph None (body "two") (body "three") None)) 5 ["d"; "zz"]
           quiet_start).
  - apply graph_valid.
  - apply graph_size.
Defined.

Lemma quiet_start_is_quiet ts : quiet (runner ts) {| bp_name := "v" |} quiet_start.
Proof.
  intros t. cbn. unfold sample_Get, task_tf, task_paramValues. cbn.
  by rewrite lookup_insert_eq.
Qed.

Lemma quiet_run_output_witness :
  let f := runner c_fails in
  valid_tasks (tasks f)
  ∧ size (tasks f) < 5
  ∧ quiet f {| bp_name := "v" |} quiet_start
  ∧ ∃ code st',
      runTasks 5 f ["d"] quiet_start = Some (code, st')
      ∧ let since := (time_Now (world st') - time_Now (world quiet_start))%Z in
        (code = CodePass →
           output st'
           = output quiet_start +:+ "ok" +:+ TAB +:+ fmt_seconds 3 since +:+ "s" +:+ LF)
        ∧ (code = CodeFailure →
             ∃ err,
               output st'
               = output quiet_start +:+ err +:+ TAB +:+ fmt_seconds 3 since +:+ "s" +:+ LF
               ∨ ∃ t written result,
                   failed result = true
                   ∧ output st'
                     = output quiet_start +:+ task_text t written result
                                          +:+ err +:+ TAB +:+ fmt_seconds 3 since
                                          +:+ "s" +:+ LF).
Proof.
  cbn zeta. split; [apply graph_valid|]. split; [apply graph_size|].
  split; [apply quiet_start_is_quiet|].
  apply (quiet_run_output (runner c_fails) {| bp_name := "v" |} eq_refl 5 ["d"] quiet_start).
  - apply graph_valid.
  - apply graph_size.
  - apply quiet_start_is_quiet.
Defined.

(** The registry that three [Register] calls build from [New]; the third
    call fails, its dependency being unknown. *)
Definition built : Taskflow SampleValue SampleCommand :=
  Register_all [task "a" (body "one") []; task "b" (body "two") ["a"];
                task "x" (body "no") ["zz"]] New.

Lemma built_valid : valid_tasks (tasks_of built) ∧ size (tasks_of built) < 5.
Proof.
  destruct (Register_all_valid
              [task "a" (body "one") []; task "b" (body "two") ["a"];
               task "x" (body "no") ["zz"]]
              (New : Taskflow SampleValue SampleCommand)) as [Hv Hs]; [constructor|].
  split; [exact Hv|]. unfold built.
  assert (Hzero : size (tasks_of (New : Taskflow SampleValue SampleCommand)) = 0)
    by apply map_size_empty.
  rewrite Hzero in Hs. cbn [length] in Hs. lia.
Qed.

Lemma Taskflow_Run_returns_witness :
  valid_tasks (tasks_of built)
  ∧ size (tasks_of built) < 5
  ∧ match Taskflow_Run boolValue 5 built ["b"] start with
    | panics _ => tf_verbose built = None ∧ is_Some (params_of built !! "v")
    | returns (res, f') =>
      (∃ code st',
         res = Some (code, st')
         ∧ (code = CodePass ∨ code = CodeFailure ∨ code = CodeInvalidArgs))
      ∧ is_Some (tf_verbose f')
      ∧ tf_tasks f' = tf_tasks built
    end.
Proof.
  split; [apply built_valid|]. split; [apply built_valid|].
  apply (Taskflow_Run_returns boolValue 5 built ["b"] start); apply built_valid.
Defined.

(** The whole way from [New] through [Register] and [Taskflow.Run]: the
    task b and its dependency a run once each, the task x that could not
    be registered is an unknown argument. *)
Example Taskflow_Run_sample :
  (∃ f' st', Taskflow_Run boolValue 5 built ["-v"; "b"] start
             = returns (Some (CodePass, st'), f')
             ∧ ran (world st') = ["a"; "b"])
  ∧ (∃ f' st', Taskflow_Run boolValue 5 built ["x"] start
               = returns (Some (CodeInvalidArgs, st'), f')
               ∧ output st' = "unknown argument: x" +:+ LF).
Proof.
  split; eexists _, _; (split; [vm_compute; reflexivity|reflexivity]).
Qed.

End MoreInstances.

End Taskflow.
